(** * l2geth: rollup fee accounting, transaction metadata and the
      price-and-nonce transaction selector

    A shallow embedding of [core/types/transaction.go] (package [types]) and
    of the [rollup/fees] functions exercised by its test file, followed by
    the properties the specification states about them.

    Conventions of the embedding
    - [*big.Int] is [Z]; [uint64] is [Z] with the wrap-around written out
      where the source computes on it; [[]byte] is [list byte];
    - a nilable pointer ([*common.Address], [*uint64], [*big.Int] in the
      metadata) is an [option];
    - a Go [error] result is [option error], [None] being [nil];
    - a method with a pointer receiver that mutates it returns the updated
      receiver next to its result;
    - a run-time panic (index out of range) is [None] in the [option] monad;
    - a [*Transaction] held in a slice or a map is a transaction: the lists
      hold no nil pointer. *)

From Stdlib Require Import ZArith QArith Lia.
From Stdlib.Strings Require Byte.
From stdpp Require Import base option list gmap relations sorting.

Local Open Scope Z_scope.

(** A byte of calldata. *)
Abbreviation byte := Byte.byte.

(** ** Part I. Definitions *)

(** *** Package [rollup/fees] *)

Module fees.

(** [BigTenThousand] of the fees package, the rounding modulus. *)
Definition BigTenThousand : Z := 10000.

(** Modelled from the spec: the counts of zero and of non-zero bytes that
    the cost of section 4.1 is computed from ([zeroesAndOnes]). *)
Definition zeroesAndOnes (data : list byte) : Z * Z :=
  foldl (fun acc b =>
           if Byte.eqb b Byte.x00 then (acc.1 + 1, acc.2) else (acc.1, acc.2 + 1))
        (0, 0) data.

(** Modelled from the spec: [calculateL1GasLimit] ([intrinsicDataCost] of
    section 4.1), whose body is not among the sources:
    cost = overhead + 4 x zero bytes + 16 x non-zero bytes. *)
Definition calculateL1GasLimit (data : list byte) (overhead : Z) : Z :=
  let '(zeroes, ones) := zeroesAndOnes data in
  overhead + 4 * zeroes + 16 * ones.

(** Modelled from the spec: [Ceilmod] ([ceilToModulus] of section 4.1):
    the value itself when it is a multiple of the modulus, the next
    multiple otherwise. *)
Definition Ceilmod (a b : Z) : Z :=
  let remainder := a mod b in
  if remainder =? 0 then a else a + b - remainder.

(** Modelled from the spec: [EncodeTxGasLimit] ([encodeGasLimit] of section
    4.1, steps 1 to 5).  The package constant [overhead] is not among the
    sources and is taken as an argument. *)
Definition EncodeTxGasLimit (overhead : Z) (data : list byte)
    (l1GasPrice l2GasLimit l2GasPrice : Z) : Z :=
  let l1Cost := calculateL1GasLimit data overhead in
  let l1Fee := l1GasPrice * l1Cost in
  let rounded := Ceilmod l2GasLimit BigTenThousand in
  if l2GasPrice =? 0 then rounded
  else
    let extra := l1Fee / l2GasPrice in
    rounded + extra.

(** Modelled from the spec: [DecodeL2GasLimit] ([decodeGasLimit] of section
    4.1): floor(encoded / 10000) x 10000. *)
Definition DecodeL2GasLimit (gasLimit : Z) : Z :=
  gasLimit / BigTenThousand * BigTenThousand.

(** The three fee errors of the package. *)
Inductive FeeError : Set :=
  | errMissingInput
  | ErrFeeTooLow
  | ErrFeeTooHigh.

(** [PaysEnoughOpts]: the fees are [*big.Int] ([None] is the nil pointer, the
    absent sentinel), the thresholds are [*big.Float], read as rationals. *)
Record PaysEnoughOpts : Set := mkPaysEnoughOpts {
  UserFee : option Z;
  ExpectedFee : option Z;
  ThresholdUp : option Q;
  ThresholdDown : option Q
}.

(** [u > e * t] on rationals, without truncation. *)
Definition aboveScaled (u e : Z) (t : Q) : bool :=
  negb (Qle_bool (inject_Z u) (inject_Z e * t)).

(** [u < e * t] on rationals, without truncation. *)
Definition belowScaled (u e : Z) (t : Q) : bool :=
  negb (Qle_bool (inject_Z e * t) (inject_Z u)).

(** Modelled from the spec: [PaysEnough] ([paysEnough] of section 4.2), whose
    body is not among the sources.  [None] is success. *)
Definition PaysEnough (opts : PaysEnoughOpts) : option FeeError :=
  match UserFee opts, ExpectedFee opts with
  | Some userFee, Some expectedFee =>
      if userFee =? expectedFee then None
      else
        let tooHigh :=
          match ThresholdUp opts with
          | Some up => aboveScaled userFee expectedFee up
          | None => expectedFee <? userFee
          end in
        let tooLow :=
          match ThresholdDown opts with
          | Some down => belowScaled userFee expectedFee down
          | None => userFee <? expectedFee
          end in
        if tooHigh then Some ErrFeeTooHigh
        else if tooLow then Some ErrFeeTooLow
        else None
  | _, _ => Some errMissingInput
  end.

End fees.

(** *** Package [container/heap], over a slice

    [TxByPrice] implements [heap.Interface] on a slice: [Len] is the length,
    [Less] and [Swap] index the slice (out of range is a panic), [Pop] cuts
    the last element off.  The functions below are [heap.Init], [heap.Fix],
    [heap.Pop] and their helpers [up] and [down], with the interface calls
    resolved to those slice operations.  Indices are [nat]; the overflow
    test [j1 < 0] of [down] cannot fire on the lengths of a slice. *)

Module heap.
Section Interface.
Context {A : Type}.
(** The order on elements behind [Less(i, j)]. *)
Variable less : A → A → bool.

(** [h.Less(i, j)]. *)
Definition Less (h : list A) (i j : nat) : option bool :=
  x ← h !! i; y ← h !! j; Some (less x y).

(** [h.Swap(i, j)], that is [s[i], s[j] = s[j], s[i]]. *)
Definition Swap (h : list A) (i j : nat) : option (list A) :=
  x ← h !! i; y ← h !! j; Some (<[j := x]> (<[i := y]> h)).

(** [h.Pop()] of the slice: [x := old[n-1]; *s = old[0 : n-1]]. *)
Definition PopBack (old : list A) : option (A * list A) :=
  match length old with
  | O => None
  | S n' => x ← old !! n'; Some (x, take n' old)
  end.

(** The loop of [down]: [i] is the current position; the result is the slice
    and the position the loop stopped at.  [fuel] bounds the iterations
    ([down_total] shows [S n] is enough). *)
Fixpoint down_loop (fuel : nat) (h : list A) (i n : nat) : option (list A * nat) :=
  match fuel with
  | O => None
  | S fuel' =>
      let j1 := (2 * i + 1)%nat in
      if decide (n ≤ j1)%nat then Some (h, i)
      else
        let j2 := (j1 + 1)%nat in
        right_first ← (if decide (j2 < n)%nat then Less h j2 j1 else Some false);
        let j := if right_first : bool then j2 else j1 in
        child_first ← Less h j i;
        if negb child_first then Some (h, i)
        else h' ← Swap h i j; down_loop fuel' h' j n
  end.

(** [down(h, i0, n)]: the slice after sifting down and whether the element
    moved ([i > i0]). *)
Definition down (h : list A) (i0 n : nat) : option (list A * bool) :=
  '(h', i) ← down_loop (S n) h i0 n;
  Some (h', bool_decide (i0 < i)%nat).

(** The parent index [(j - 1) / 2] of Go, whose division truncates towards
    zero: the parent of 0 is 0. *)
Definition parent (j : nat) : nat :=
  Z.to_nat (Z.quot (Z.of_nat j - 1) 2).

(** The loop of [up]. *)
Fixpoint up_loop (fuel : nat) (h : list A) (j : nat) : option (list A) :=
  match fuel with
  | O => None
  | S fuel' =>
      let i := parent j in
      if decide (i = j) then Some h
      else
        child_first ← Less h j i;
        if negb child_first then Some h
        else h' ← Swap h i j; up_loop fuel' h' i
  end.

(** [up(h, j)]. *)
Definition up (h : list A) (j : nat) : option (list A) :=
  up_loop (S j) h j.

(** The loop of [heap.Init]: [down(h, i, n)] for [i = k-1, ..., 0]. *)
Fixpoint Init_loop (k : nat) (h : list A) (n : nat) : option (list A) :=
  match k with
  | O => Some h
  | S i => '(h', _) ← down h i n; Init_loop i h' n
  end.

(** [heap.Init(h)]. *)
Definition Init (h : list A) : option (list A) :=
  let n := length h in
  Init_loop (n / 2)%nat h n.

(** [heap.Fix(h, i)]. *)
Definition Fix (h : list A) (i : nat) : option (list A) :=
  '(h', moved) ← down h i (length h);
  if negb moved then up h' i else Some h'.

(** [heap.Pop(h)]: [n := h.Len() - 1; h.Swap(0, n); down(h, 0, n);
    return h.Pop()].  On the empty slice [n] is -1 and [Swap] panics. *)
Definition Pop (h : list A) : option (A * list A) :=
  match length h with
  | O => None
  | S n =>
      h1 ← Swap h 0 n;
      '(h2, _) ← down h1 0 n;
      PopBack h2
  end.

(** [c] is a child of [p] in the binary tree the slice stores level by
    level: the children of [i] are [2*i + 1] and [2*i + 2], as [down] reads
    them. *)
Definition child (p c : nat) : Prop :=
  c = (2 * p + 1)%nat ∨ c = (2 * p + 2)%nat.

(** The invariant of [container/heap] on the first [n] elements, for the
    parents from [k] on: [!h.Less(c, p)] for every child [c] of [p]. *)
Definition orderedFrom (k : nat) (h : list A) (n : nat) : Prop :=
  ∀ p c x y, (k ≤ p)%nat → child p c → (c < n)%nat →
    h !! p = Some x → h !! c = Some y → less y x = false.

(** The whole slice is a heap. *)
Definition ordered (h : list A) : Prop := orderedFrom 0 h (length h).

End Interface.
End heap.

(** *** Package [common] *)

Module common.

(** [common.Address] (20 bytes) and [common.Hash] (32 bytes), read as
    numbers; the zero value [common.Address{}] is 0. *)
Abbreviation Address := N (only parsing).
Abbreviation Hash := N (only parsing).

End common.

(** *** Package [core/types]: transactions *)

Module types.
Import common.

(** Errors: [ErrInvalidSig] is declared in this file; every other error comes
    from a collaborator (RLP, JSON, signer) and is opaque here. *)
Inductive error : Set :=
  | ErrInvalidSig
  | ErrCollaborator (code : N).

(** [txdata]: the signed core fields.  [V], [R], [S] are [SigV], [SigR],
    [SigS]; [JSONHash] is the [Hash] field, used only when marshaling to
    JSON and skipped by RLP. *)
Record txdata : Set := mk_txdata {
  AccountNonce : Z;
  Price : Z;
  GasLimit : Z;
  Recipient : option Address;
  Amount : Z;
  Payload : list byte;
  SigV : Z;
  SigR : Z;
  SigS : Z;
  JSONHash : option common.Hash
}.

(** [QueueOrigin]: where a transaction entered the rollup. *)
Inductive QueueOrigin : Set :=
  | QueueOriginSequencer
  | QueueOriginL1ToL2.

(** [TransactionMeta], the mutable side-record.  Its declaration is not
    among the sources; the fields are those [AsMessage] and
    [NewTransactionMeta]'s call in [newTransaction] use. *)
Record TransactionMeta : Set := mk_meta {
  meta_L1BlockNumber : option Z;
  meta_L1Timestamp : Z;
  meta_L1MessageSender : option Address;
  meta_QueueOrigin : QueueOrigin;
  meta_Index : option Z;
  meta_QueueIndex : option Z;
  meta_RawTransaction : list byte
}.

(** [Transaction]: the core fields, the metadata and the [hash] and [size]
    caches ([atomic.Value], [None] before the first store).  The third cache,
    [from], is read and written by [Sender] only, which section 6 of the
    specification fixes as a pure function of the core fields. *)
Record Transaction : Set := mk_tx {
  tx_data : txdata;
  tx_meta : TransactionMeta;
  tx_hash : option common.Hash;
  tx_size : option Z
}.

(** [Message]: a fully derived transaction. *)
Record Message : Set := mk_msg {
  msg_to : option Address;
  msg_from : Address;
  msg_nonce : Z;
  msg_amount : Z;
  msg_gasLimit : Z;
  msg_gasPrice : Z;
  msg_data : list byte;
  msg_checkNonce : bool;
  msg_l1Timestamp : Z;
  msg_l1BlockNumber : option Z;
  msg_l1MessageSender : option Address;
  msg_queueOrigin : QueueOrigin
}.

(** [Transactions] and [TxByPrice] are slices of transactions. *)
Abbreviation Transactions := (list Transaction) (only parsing).
Abbreviation TxByPrice := (list Transaction) (only parsing).

(** The collaborators of the file, implemented elsewhere: the signer and
    sender recovery, the RLP and JSON codecs of [txdata], the hash function,
    signature validation, and the process environment. *)
Class Collaborators : Type := {
  (** values of the [Signer] interface *)
  Signer : Type;
  (** [Sender(signer, tx)]: the address and the error it returns; by section
      6 of the specification it is deterministic and reads the core fields
      only *)
  recoverSender : Signer → txdata → Address * option error;
  (** [signer.SignatureValues(tx, sig)]: r, s, v and the error *)
  SignatureValues : Signer → txdata → list byte → (Z * Z * Z) * option error;
  (** [rlp.Encode] of the core fields: the bytes written *)
  rlpEncode : txdata → list byte;
  (** the Keccak-256 hasher behind [rlpHash] *)
  keccak256 : list byte → common.Hash;
  (** an [rlp.Stream] *)
  Stream : Type;
  (** the size [s.Kind()] reports *)
  streamKindSize : Stream → Z;
  (** [s.Decode(&tx.data)]: the core fields after the call and its error *)
  streamDecode : Stream → txdata → txdata * option error;
  (** [rlp.ListSize] *)
  rlpListSize : Z → Z;
  (** [tx.data.UnmarshalJSON(input)], generated by gencodec *)
  txdataUnmarshalJSON : list byte → txdata → txdata * option error;
  (** [deriveChainId] *)
  deriveChainId : Z → Z;
  (** [crypto.ValidateSignatureValues(v, r, s, homestead)] *)
  ValidateSignatureValues : Z → Z → Z → bool → bool;
  (** [common.HexToAddress(os.Getenv("ETH1_L1_CROSS_DOMAIN_MESSENGER_ADDRESS"))] *)
  l1CrossDomainMessenger : Address
}.

(** [x.Uint64()] of a [*big.Int]: the low 64 bits of the absolute value. *)
Definition Uint64 (x : Z) : Z := Z.abs x mod 2 ^ 64.

(** Arithmetic on [uint64] wraps around. *)
Definition wrap64 (x : Z) : Z := x mod 2 ^ 64.

(** The conversion [byte(x)] of a [uint64]. *)
Definition toByte (x : Z) : Z := x mod 256.

(** [NewTransactionMeta]: the record of its arguments (the function is
    declared next to [TransactionMeta]). *)
Definition NewTransactionMeta (l1BlockNumber : option Z) (l1Timestamp : Z)
    (l1MessageSender : option Address) (queueOrigin : QueueOrigin)
    (index queueIndex : option Z) (rawTransaction : list byte) : TransactionMeta :=
  {| meta_L1BlockNumber := l1BlockNumber;
     meta_L1Timestamp := l1Timestamp;
     meta_L1MessageSender := l1MessageSender;
     meta_QueueOrigin := queueOrigin;
     meta_Index := index;
     meta_QueueIndex := queueIndex;
     meta_RawTransaction := rawTransaction |}.

(** [newTransaction]; a nil [amount] or [gasPrice] leaves the field zero, and
    the nil [rawTransaction] is the empty slice. *)
Definition newTransaction (nonce : Z) (to : option Address) (amount : option Z)
    (gasLimit : Z) (gasPrice : option Z) (data : list byte) : Transaction :=
  let meta := NewTransactionMeta None 0 None QueueOriginSequencer None None [] in
  let d := {| AccountNonce := nonce;
              Recipient := to;
              Payload := data;
              Amount := default 0 amount;
              GasLimit := gasLimit;
              Price := default 0 gasPrice;
              SigV := 0; SigR := 0; SigS := 0;
              JSONHash := None |} in
  {| tx_data := d; tx_meta := meta; tx_hash := None; tx_size := None |}.

(** [NewTransaction]. *)
Definition NewTransaction (nonce : Z) (to : Address) (amount : option Z)
    (gasLimit : Z) (gasPrice : option Z) (data : list byte) : Transaction :=
  newTransaction nonce (Some to) amount gasLimit gasPrice data.

(** [NewContractCreation]. *)
Definition NewContractCreation (nonce : Z) (amount : option Z)
    (gasLimit : Z) (gasPrice : option Z) (data : list byte) : Transaction :=
  newTransaction nonce None amount gasLimit gasPrice data.

(** [SetTransactionMeta]: a nil argument changes nothing. *)
Definition SetTransactionMeta (t : Transaction) (meta : option TransactionMeta) : Transaction :=
  match meta with
  | None => t
  | Some m => {| tx_data := tx_data t; tx_meta := m; tx_hash := tx_hash t; tx_size := tx_size t |}
  end.

(** [GetMeta]: [&t.meta], never nil. *)
Definition GetMeta (t : Transaction) : TransactionMeta := tx_meta t.

(** [SetIndex]. *)
Definition SetIndex (t : Transaction) (index : Z) : Transaction :=
  let m := tx_meta t in
  SetTransactionMeta t
    (Some (NewTransactionMeta (meta_L1BlockNumber m) (meta_L1Timestamp m)
             (meta_L1MessageSender m) (meta_QueueOrigin m) (Some index)
             (meta_QueueIndex m) (meta_RawTransaction m))).

(** [SetL1Timestamp]. *)
Definition SetL1Timestamp (t : Transaction) (ts : Z) : Transaction :=
  let m := tx_meta t in
  SetTransactionMeta t
    (Some (NewTransactionMeta (meta_L1BlockNumber m) ts
             (meta_L1MessageSender m) (meta_QueueOrigin m) (meta_Index m)
             (meta_QueueIndex m) (meta_RawTransaction m))).

(** [SetL1BlockNumber]. *)
Definition SetL1BlockNumber (t : Transaction) (bn : Z) : Transaction :=
  let m := tx_meta t in
  SetTransactionMeta t
    (Some (NewTransactionMeta (Some bn) (meta_L1Timestamp m)
             (meta_L1MessageSender m) (meta_QueueOrigin m) (meta_Index m)
             (meta_QueueIndex m) (meta_RawTransaction m))).

(** [SetNonce] writes a core field. *)
Definition SetNonce (tx : Transaction) (nonce : Z) : Transaction :=
  let d := tx_data tx in
  {| tx_data := {| AccountNonce := nonce; Price := Price d; GasLimit := GasLimit d;
                   Recipient := Recipient d; Amount := Amount d; Payload := Payload d;
                   SigV := SigV d; SigR := SigR d; SigS := SigS d;
                   JSONHash := JSONHash d |};
     tx_meta := tx_meta tx; tx_hash := tx_hash tx; tx_size := tx_size tx |}.

(** [isProtectedV]: [V.BitLen() <= 8] says the absolute value is below 256. *)
Definition isProtectedV (V : Z) : bool :=
  if Z.abs V <? 256 then
    let v := Uint64 V in
    negb (v =? 27) && negb (v =? 28)
  else true.

(** The accessors of the core fields. *)
Definition Gas (tx : Transaction) : Z := GasLimit (tx_data tx).
Definition L2Gas (tx : Transaction) : Z := fees.DecodeL2GasLimit (GasLimit (tx_data tx)).
Definition GasPrice (tx : Transaction) : Z := Price (tx_data tx).
Definition Value (tx : Transaction) : Z := Amount (tx_data tx).
Definition Nonce (tx : Transaction) : Z := AccountNonce (tx_data tx).

(** [Cost]: amount + gasprice * gaslimit. *)
Definition Cost (tx : Transaction) : Z :=
  Price (tx_data tx) * GasLimit (tx_data tx) + Amount (tx_data tx).

(** The two assignments [AsMessage] makes to a message it has built. *)
Definition set_from (msg : Message) (from : Address) : Message :=
  {| msg_to := msg_to msg; msg_from := from; msg_nonce := msg_nonce msg;
     msg_amount := msg_amount msg; msg_gasLimit := msg_gasLimit msg;
     msg_gasPrice := msg_gasPrice msg; msg_data := msg_data msg;
     msg_checkNonce := msg_checkNonce msg; msg_l1Timestamp := msg_l1Timestamp msg;
     msg_l1BlockNumber := msg_l1BlockNumber msg;
     msg_l1MessageSender := msg_l1MessageSender msg;
     msg_queueOrigin := msg_queueOrigin msg |}.

Definition set_l1MessageSender (msg : Message) (a : option Address) : Message :=
  {| msg_to := msg_to msg; msg_from := msg_from msg; msg_nonce := msg_nonce msg;
     msg_amount := msg_amount msg; msg_gasLimit := msg_gasLimit msg;
     msg_gasPrice := msg_gasPrice msg; msg_data := msg_data msg;
     msg_checkNonce := msg_checkNonce msg; msg_l1Timestamp := msg_l1Timestamp msg;
     msg_l1BlockNumber := msg_l1BlockNumber msg;
     msg_l1MessageSender := a;
     msg_queueOrigin := msg_queueOrigin msg |}.

(** [NewMessage]: the message of its arguments, with the L1 timestamp 0. *)
Definition NewMessage (from : Address) (to : option Address) (nonce : Z) (amount : Z)
    (gasLimit : Z) (gasPrice : Z) (data : list byte) (checkNonce : bool)
    (l1MessageSender : option Address) (l1BlockNumber : option Z)
    (queueOrigin : QueueOrigin) : Message :=
  {| msg_from := from;
     msg_to := to;
     msg_nonce := nonce;
     msg_amount := amount;
     msg_gasLimit := gasLimit;
     msg_gasPrice := gasPrice;
     msg_data := data;
     msg_checkNonce := checkNonce;
     msg_l1BlockNumber := l1BlockNumber;
     msg_l1MessageSender := l1MessageSender;
     msg_queueOrigin := queueOrigin;
     msg_l1Timestamp := 0 |}.

(** The accessors of [Message]; the receiver's name is prefixed where the
    method shares its name with one of [Transaction]. *)
Definition Message_From (m : Message) : Address := msg_from m.
Definition Message_To (m : Message) : option Address := msg_to m.
Definition Message_GasPrice (m : Message) : Z := msg_gasPrice m.
Definition Message_Value (m : Message) : Z := msg_amount m.
Definition Message_Gas (m : Message) : Z := msg_gasLimit m.
Definition Message_Nonce (m : Message) : Z := msg_nonce m.
Definition Message_Data (m : Message) : list byte := msg_data m.
Definition Message_CheckNonce (m : Message) : bool := msg_checkNonce m.
Definition Message_L1MessageSender (m : Message) : option Address := msg_l1MessageSender m.
Definition Message_L1BlockNumber (m : Message) : option Z := msg_l1BlockNumber m.
Definition Message_QueueOrigin (m : Message) : QueueOrigin := msg_queueOrigin m.
Definition Message_L1Timestamp (m : Message) : Z := msg_l1Timestamp m.

Section WithCollaborators.
Context {C : Collaborators}.

(** Modelled from the spec: [Sender(signer, tx)], declared with the signers
    and not among the sources; section 6 makes it a deterministic function
    of the transaction's core fields, here the collaborator
    [recoverSender]. *)
Definition Sender (s : Signer) (tx : Transaction) : Address * option error :=
  recoverSender s (tx_data tx).

(** [EncodeRLP]: the bytes [rlp.Encode(w, &tx.data)] writes. *)
Definition EncodeRLP (tx : Transaction) : list byte := rlpEncode (tx_data tx).

(** [rlpHash(tx)]: the hash of what [EncodeRLP] writes. *)
Definition rlpHash (tx : Transaction) : common.Hash := keccak256 (EncodeRLP tx).

(** [DecodeRLP]: the size cache is stored when the decode succeeds. *)
Definition DecodeRLP (tx : Transaction) (s : Stream) : Transaction * option error :=
  let size := streamKindSize s in
  let '(d, err) := streamDecode s (tx_data tx) in
  match err with
  | None =>
      ({| tx_data := d; tx_meta := tx_meta tx; tx_hash := tx_hash tx;
          tx_size := Some (rlpListSize size) |}, None)
  | Some e =>
      ({| tx_data := d; tx_meta := tx_meta tx; tx_hash := tx_hash tx;
          tx_size := tx_size tx |}, Some e)
  end.

(** Whether a signature is present: one of V, R, S has a non-zero sign. *)
Definition withSignature (d : txdata) : bool :=
  negb (SigV d =? 0) || negb (SigR d =? 0) || negb (SigS d =? 0).

(** The recovery byte [UnmarshalJSON] hands to the validation. *)
Definition recoveryByte (d : txdata) : Z :=
  if isProtectedV (SigV d) then
    let chainID := Uint64 (deriveChainId (SigV d)) in
    toByte (wrap64 (wrap64 (Uint64 (SigV d) - 35) - wrap64 (2 * chainID)))
  else
    toByte (wrap64 (Uint64 (SigV d) - 27)).

(** [UnmarshalJSON]. *)
Definition UnmarshalJSON (tx : Transaction) (input : list byte) : Transaction * option error :=
  let '(d, err) := txdataUnmarshalJSON input (tx_data tx) in
  let tx' := {| tx_data := d; tx_meta := tx_meta tx; tx_hash := tx_hash tx;
                tx_size := tx_size tx |} in
  match err with
  | Some e => (tx', Some e)
  | None =>
      if withSignature d then
        let V := recoveryByte d in
        if negb (ValidateSignatureValues V (SigR d) (SigS d) false)
        then (tx', Some ErrInvalidSig)
        else (tx', None)
      else (tx', None)
  end.

(** [Hash]: the cached value when there is one, else [rlpHash], stored. *)
Definition Hash (tx : Transaction) : common.Hash * Transaction :=
  match tx_hash tx with
  | Some hash => (hash, tx)
  | None =>
      let v := rlpHash tx in
      (v, {| tx_data := tx_data tx; tx_meta := tx_meta tx; tx_hash := Some v;
             tx_size := tx_size tx |})
  end.

(** [Size]: the cached value when there is one, else the number of bytes
    [rlp.Encode] writes into the counter, stored. *)
Definition Size (tx : Transaction) : Z * Transaction :=
  match tx_size tx with
  | Some size => (size, tx)
  | None =>
      let c := Z.of_nat (length (rlpEncode (tx_data tx))) in
      (c, {| tx_data := tx_data tx; tx_meta := tx_meta tx; tx_hash := tx_hash tx;
             tx_size := Some c |})
  end.

(** [AsMessage]: the transaction with its metadata rewritten, the message
    and the error of the sender recovery. *)
Definition AsMessage (tx : Transaction) (s : Signer) : Transaction * Message * option error :=
  let txMeta := GetMeta tx in
  let txMeta :=
    if SigV (tx_data tx) =? 0 then
      (* L1 message *)
      {| meta_L1BlockNumber := Some 0;
         meta_L1Timestamp := 0;
         meta_L1MessageSender := Some l1CrossDomainMessenger;
         meta_QueueOrigin := QueueOriginL1ToL2;
         meta_Index := Some 0;
         meta_QueueIndex := Some 0;
         meta_RawTransaction := Payload (tx_data tx) |}
    else
      {| meta_L1BlockNumber := Some 0;
         (* [&txMeta.L1Timestamp == nil] never holds: the field is kept *)
         meta_L1Timestamp := meta_L1Timestamp txMeta;
         meta_L1MessageSender := meta_L1MessageSender txMeta;
         meta_QueueOrigin := QueueOriginSequencer;
         meta_Index := match meta_Index txMeta with
                       | None => Some 0
                       | Some index => Some index
                       end;
         meta_QueueIndex := match meta_QueueIndex txMeta with
                            | None => Some 0
                            | Some qindex => Some qindex
                            end;
         meta_RawTransaction := Payload (tx_data tx) |} in
  let tx := SetTransactionMeta tx (Some txMeta) in
  let msg :=
    {| msg_nonce := AccountNonce (tx_data tx);
       msg_gasLimit := GasLimit (tx_data tx);
       msg_gasPrice := Price (tx_data tx);
       msg_to := Recipient (tx_data tx);
       msg_amount := Amount (tx_data tx);
       msg_data := Payload (tx_data tx);
       msg_checkNonce := true;
       msg_l1MessageSender := meta_L1MessageSender (tx_meta tx);
       msg_l1BlockNumber := meta_L1BlockNumber (tx_meta tx);
       msg_queueOrigin := meta_QueueOrigin (tx_meta tx);
       msg_l1Timestamp := meta_L1Timestamp (tx_meta tx);
       msg_from := 0%N |} in
  let '(from, err) := Sender s tx in
  let msg := set_from msg from in
  let msg :=
    match meta_L1MessageSender (tx_meta tx) with
    | Some l1MessageSender => set_l1MessageSender msg (Some l1MessageSender)
    | None => set_l1MessageSender msg (Some 0%N)
    end in
  (tx, msg, err).

(** [WithSignature]: a copy with the signature set and empty caches. *)
Definition WithSignature (tx : Transaction) (signer : Signer) (sig : list byte)
    : option Transaction * option error :=
  let '((r, s, v), err) := SignatureValues signer (tx_data tx) sig in
  match err with
  | Some e => (None, Some e)
  | None =>
      let d := tx_data tx in
      (Some {| tx_data := {| AccountNonce := AccountNonce d; Price := Price d;
                             GasLimit := GasLimit d; Recipient := Recipient d;
                             Amount := Amount d; Payload := Payload d;
                             SigV := v; SigR := r; SigS := s;
                             JSONHash := JSONHash d |};
               tx_meta := tx_meta tx; tx_hash := None; tx_size := None |}, None)
  end.

(** The metadata of an L1-originated transaction in the words of section
    4.3, step 1, of the specification, to compare [AsMessage] with: the index
    and the queue index are 0 "if absent". *)
Definition spec_l1Metadata (old : TransactionMeta) (payload : list byte) : TransactionMeta :=
  {| meta_L1BlockNumber := Some 0;
     meta_L1Timestamp := 0;
     meta_L1MessageSender := Some l1CrossDomainMessenger;
     meta_QueueOrigin := QueueOriginL1ToL2;
     meta_Index := Some (default 0 (meta_Index old));
     meta_QueueIndex := Some (default 0 (meta_QueueIndex old));
     meta_RawTransaction := payload |}.

(** The caches hold what [Hash] and [Size] would compute: true of a
    transaction whose caches are empty, and kept by every operation that
    leaves the core fields alone. *)
Definition cacheCoherent (tx : Transaction) : Prop :=
  (∀ h, tx_hash tx = Some h → h = rlpHash tx) ∧
  (∀ n, tx_size tx = Some n → n = Z.of_nat (length (rlpEncode (tx_data tx)))).

(** [TxByPrice.Less] on elements: the price of the first is greater. *)
Definition priceLess (x y : Transaction) : bool :=
  Price (tx_data y) <? Price (tx_data x).

(** [TransactionsByPriceAndNonce]. *)
Record TransactionsByPriceAndNonce : Type := mk_selector {
  txs : gmap N Transactions;
  heads : TxByPrice;
  signer : Signer
}.

(** The address [acc, _ := Sender(signer, tx)] binds. *)
Definition senderOf (s : Signer) (tx : Transaction) : Address := (Sender s tx).1.

(** The body of the [range] loop of [NewTransactionsByPriceAndNonce], at the
    key [from]: a key whose entry was deleted before the loop reached it is
    not produced, and the value read is the entry at that moment. *)
Definition collectHead (s : Signer) (st : gmap N Transactions * TxByPrice) (from : Address)
    : gmap N Transactions * TxByPrice :=
  match st.1 !! from with
  | Some (tx0 :: rest) =>
      let heads := st.2 ++ [tx0] in
      let acc := senderOf s tx0 in
      let txs := <[acc := rest]> st.1 in
      let txs := if decide (from = acc) then txs else delete from txs in
      (txs, heads)
  | _ => st
  end.

(** [NewTransactionsByPriceAndNonce].  Go leaves the order in which [range]
    visits the keys of a map open: [order] is that order. *)
Definition NewTransactionsByPriceAndNonce (s : Signer) (order : list Address)
    (txs : gmap N Transactions) : option TransactionsByPriceAndNonce :=
  let st := foldl (collectHead s) (txs, []) order in
  heads ← heap.Init priceLess st.2;
  Some {| txs := st.1; heads := heads; signer := s |}.

(** [Peek]: the result and the selector after the call. *)
Definition Peek (t : TransactionsByPriceAndNonce)
    : option Transaction * TransactionsByPriceAndNonce :=
  match heads t with
  | [] => (None, t)
  | head :: _ => (Some head, t)
  end.

(** [Shift]; [t.heads[0]] panics on an empty heap. *)
Definition Shift (t : TransactionsByPriceAndNonce) : option TransactionsByPriceAndNonce :=
  head ← heads t !! 0%nat;
  let acc := senderOf (signer t) head in
  match txs t !! acc with
  | Some (tx0 :: rest) =>
      heads' ← heap.Fix priceLess (<[0%nat := tx0]> (heads t)) 0;
      Some {| txs := <[acc := rest]> (txs t); heads := heads'; signer := signer t |}
  | _ =>
      '(_, heads') ← heap.Pop priceLess (heads t);
      Some {| txs := txs t; heads := heads'; signer := signer t |}
  end.

(** [Pop]. *)
Definition Pop (t : TransactionsByPriceAndNonce) : option TransactionsByPriceAndNonce :=
  '(_, heads') ← heap.Pop priceLess (heads t);
  Some {| txs := txs t; heads := heads'; signer := signer t |}.

(** One call of [Shift] or [Pop] that returns. *)
Definition step (t t' : TransactionsByPriceAndNonce) : Prop :=
  Shift t = Some t' ∨ Pop t = Some t'.

(** The selector a call sequence reaches: built by the constructor, then
    any number of [Shift] and [Pop] calls. *)
Definition reachable (s : Signer) (order : list Address) (m : gmap N Transactions)
    (t : TransactionsByPriceAndNonce) : Prop :=
  ∃ t0, NewTransactionsByPriceAndNonce s order m = Some t0 ∧ rtc step t0 t.

(** A call sequence with what it emits: before each call of [Shift] or
    [Pop] that returns, [Peek] returns the transaction the call then takes
    off.  [emits t log t'] says that such calls lead from [t] to [t'] and
    that [log] lists, in the order of the calls, the transactions [Peek]
    returned before them. *)
Inductive emits : TransactionsByPriceAndNonce → list Transaction →
                  TransactionsByPriceAndNonce → Prop :=
  | emits_nil t : emits t [] t
  | emits_call t x t1 log t2 :
      (Peek t).1 = Some x → step t t1 → emits t1 log t2 → emits t (x :: log) t2.

(** The map lists transactions per account: each key is the sender the
    signer recovers for every transaction of its list. *)
Definition keyedBySender (s : Signer) (m : gmap N Transactions) : Prop :=
  map_Forall (λ (a : N) (l : Transactions), Forall (λ tx, senderOf s tx = a) l) m.

(** Every list is sorted by nonce. *)
Definition nonceSorted (m : gmap N Transactions) : Prop :=
  map_Forall (λ (_ : N) (l : Transactions), Sorted (λ x y, Nonce x ≤ Nonce y) l) m.

(** The transactions of account [a] the selector still holds in [txs]. *)
Definition remainingOf (t : TransactionsByPriceAndNonce) (a : Address) : Transactions :=
  default [] (txs t !! a).

(** The invariant of the selector built from the map [m]: the remaining
    lists are keyed by sender, the heads have distinct senders, and every
    head stands in its account's original list right before what remains
    of that account. *)
Definition selectorInv (s : Signer) (m : gmap N Transactions)
    (t : TransactionsByPriceAndNonce) : Prop :=
  signer t = s
  ∧ keyedBySender s (txs t)
  ∧ NoDup (senderOf s <$> heads t)
  ∧ ∀ h, h ∈ heads t →
      ∃ emitted, m !! senderOf s h = Some (emitted ++ h :: remainingOf t (senderOf s h)).

(** Every head stands in its account's original list right after the
    transactions of that account in [log], in their order, and right before
    the transactions the selector still holds for the account. *)
Definition headsFollow (s : Signer) (m : gmap N Transactions) (log : list Transaction)
    (t : TransactionsByPriceAndNonce) : Prop :=
  ∀ h, h ∈ heads t →
    m !! senderOf s h
    = Some (filter (λ x, senderOf s x = senderOf s h) log
            ++ h :: remainingOf t (senderOf s h)).

(** [ChainId]. *)
Definition ChainId (tx : Transaction) : Z := deriveChainId (SigV (tx_data tx)).

(** [Protected]. *)
Definition Protected (tx : Transaction) : bool := isProtectedV (SigV (tx_data tx)).

(** [RawSignatureValues]: v, r, s. *)
Definition RawSignatureValues (tx : Transaction) : Z * Z * Z :=
  (SigV (tx_data tx), SigR (tx_data tx), SigS (tx_data tx)).

(** [TxByPrice.Push]: the slice with [x] appended. *)
Definition TxByPrice_Push (s : TxByPrice) (x : Transaction) : TxByPrice := s ++ [x].

(** [TxByPrice.Pop]: the last element and the slice without it. *)
Definition TxByPrice_Pop (s : TxByPrice) : option (Transaction * TxByPrice) :=
  heap.PopBack s.

(** [TxByNonce.Less] on elements. *)
Definition nonceLess (x y : Transaction) : bool :=
  AccountNonce (tx_data x) <? AccountNonce (tx_data y).

(** [TxDifference]: [remove] is the set of the hashes of [b]; the second loop
    appends to [keep] the transactions of [a] whose hash is not in it.  Both
    loops call [Hash], which fills the cache of the transaction it is called
    on: the transactions kept are returned with their hash stored. *)
Definition TxDifference (a b : Transactions) : Transactions :=
  let remove : gset N :=
    foldl (λ (remove : gset N) tx, {[ (Hash tx).1 ]} ∪ remove) ∅ b in
  foldl (λ (keep : Transactions) tx,
           if decide ((Hash tx).1 ∈ remove) then keep else keep ++ [(Hash tx).2])
        [] a.

(** The number of transactions a selector holds: the heads and what remains
    in the lists of [txs]. *)
Definition pendingCount (t : TransactionsByPriceAndNonce) : nat :=
  (length (heads t)
   + map_fold (λ (_ : N) (l : Transactions) (acc : nat), length l + acc) 0 (txs t))%nat.

End WithCollaborators.
End types.

(** *** Concrete collaborators and transactions

    Stand-ins for the collaborators, to run the definitions on: a signer
    whose recovered address is the R value (recovery fails on R = 0), codecs
    that hand over an already decoded [txdata], and simple versions of the
    signature validation and of the chain-id derivation. *)

Module sample.
Import common types.

(** The part of [crypto.ValidateSignatureValues] that does not depend on
    the curve: R and S are at least 1 and the recovery id is 0 or 1. *)
Definition validate (v r s : Z) (homestead : bool) : bool :=
  if (r <? 1) || (s <? 1) then false
  else (v =? 0) || (v =? 1).

(** [deriveChainId] on the values of V that fit 64 bits and are not 27 or
    28. *)
Definition chainIdOf (v : Z) : Z := (v - 35) / 2.

(** The collaborators: [decoded] is what the RLP stream [Some _] and every
    non-empty JSON input decode to. *)
Definition collaborators (decoded : txdata) : Collaborators :=
  {| Signer := unit;
     recoverSender := fun _ d =>
       if SigR d =? 0 then (0%N, Some (ErrCollaborator 1))
       else (Z.to_N (SigR d), None);
     SignatureValues := fun _ _ _ => ((0, 0, 0), Some (ErrCollaborator 2));
     rlpEncode := fun d => Payload d;
     keccak256 := fun bs => N.of_nat (length bs);
     Stream := bool;
     streamKindSize := fun _ => 0;
     streamDecode := fun s d =>
       if s then (decoded, None) else (d, Some (ErrCollaborator 3));
     rlpListSize := fun n => n;
     txdataUnmarshalJSON := fun input d =>
       match input with
       | [] => (d, Some (ErrCollaborator 4))
       | _ => (decoded, None)
       end;
     deriveChainId := chainIdOf;
     ValidateSignatureValues := validate;
     (* ETH1_L1_CROSS_DOMAIN_MESSENGER_ADDRESS of localenv.sh *)
     l1CrossDomainMessenger := 0xa85233C63b9Ee964Add6F2cffe00Fd84eb32338f%N |}.

(** Core fields with the given nonce, price and signature, the rest zero. *)
Definition coreFields (nonce price v r s : Z) : txdata :=
  {| AccountNonce := nonce; Price := price; GasLimit := 21000; Recipient := None;
     Amount := 0; Payload := [Byte.x01; Byte.x00]; SigV := v; SigR := r; SigS := s;
     JSONHash := None |}.

(** A transaction with those core fields, fresh metadata and empty caches. *)
Definition signedTx (nonce price v r s : Z) : Transaction :=
  {| tx_data := coreFields nonce price v r s;
     tx_meta := NewTransactionMeta None 0 None QueueOriginSequencer None None [];
     tx_hash := None; tx_size := None |}.

(** A deposit (V = 0) that already carries the index 7 and queue index 3. *)
Definition depositTx : Transaction :=
  {| tx_data := coreFields 0 0 0 0 0;
     tx_meta := NewTransactionMeta (Some 12) 1600000000 None QueueOriginL1ToL2
                  (Some 7) (Some 3) [];
     tx_hash := None; tx_size := None |}.

(** Core fields whose signature is non-zero and invalid (S = 0). *)
Definition badSignature : txdata := coreFields 0 1 27 5 0.

(** The collaborators whose decoders produce [badSignature]. *)
Definition standard : Collaborators := collaborators badSignature.

(** Two accounts, 5 and 6, with their transactions in nonce order: the
    sample signer recovers the R value as the sender. *)
Definition pending : gmap N Transactions :=
  {[ 5%N := [signedTx 0 3 27 5 1; signedTx 1 9 27 5 1];
     6%N := [signedTx 0 4 27 6 1] ]}.

(** The same lists under exchanged keys: the list of account 6 under the
    key 5 and the list of account 5 under the key 6. *)
Definition exchanged : gmap N Transactions :=
  {[ 5%N := [signedTx 0 4 27 6 1; signedTx 1 2 27 6 1];
     6%N := [signedTx 0 3 27 5 1; signedTx 1 9 27 5 1] ]}.

(** Collaborators whose signer turns the bytes of a signature into values:
    r is the number of bytes, s is 1 and v is 27; the empty signature is an
    error. *)
Definition signing : Collaborators :=
  {| Signer := unit;
     recoverSender := fun _ d =>
       if SigR d =? 0 then (0%N, Some (ErrCollaborator 1))
       else (Z.to_N (SigR d), None);
     SignatureValues := fun _ _ sig =>
       match sig with
       | [] => ((0, 0, 0), Some (ErrCollaborator 2))
       | _ => ((Z.of_nat (length sig), 1, 27), None)
       end;
     rlpEncode := fun d => Payload d;
     keccak256 := fun bs => N.of_nat (length bs);
     Stream := bool;
     streamKindSize := fun _ => 0;
     streamDecode := fun s d =>
       if s then (badSignature, None) else (d, Some (ErrCollaborator 3));
     rlpListSize := fun n => n;
     txdataUnmarshalJSON := fun input d =>
       match input with
       | [] => (d, Some (ErrCollaborator 4))
       | _ => (badSignature, None)
       end;
     deriveChainId := chainIdOf;
     ValidateSignatureValues := validate;
     l1CrossDomainMessenger := 0xa85233C63b9Ee964Add6F2cffe00Fd84eb32338f%N |}.

(** A stand-in for the RLP encoding that keeps the nonce: the nonce as RLP
    writes an integer below 256 (0x80 for zero, the byte itself below 128,
    0x81 and the byte from 128 on), followed by the payload. *)
Definition nonceBytes (n : Z) : list byte :=
  let b := default Byte.x00 (Byte.of_N (Z.to_N n)) in
  if n =? 0 then [Byte.x80] else if n <? 128 then [b] else [Byte.x81; b].

(** A stand-in for the hasher that tells byte strings apart: the string
    read as a number in base 256 behind a leading 1. *)
Definition digest (bs : list byte) : N :=
  foldl (λ (acc : N) (b : byte), 256 * acc + Byte.to_N b)%N 1%N bs.

(** The collaborators of [standard] with that encoding and that hasher. *)
Definition encoding : Collaborators :=
  {| Signer := unit;
     recoverSender := fun _ d =>
       if SigR d =? 0 then (0%N, Some (ErrCollaborator 1))
       else (Z.to_N (SigR d), None);
     SignatureValues := fun _ _ _ => ((0, 0, 0), Some (ErrCollaborator 2));
     rlpEncode := fun d => nonceBytes (AccountNonce d) ++ Payload d;
     keccak256 := digest;
     Stream := bool;
     streamKindSize := fun _ => 0;
     streamDecode := fun s d =>
       if s then (badSignature, None) else (d, Some (ErrCollaborator 3));
     rlpListSize := fun n => n;
     txdataUnmarshalJSON := fun input d =>
       match input with
       | [] => (d, Some (ErrCollaborator 4))
       | _ => (badSignature, None)
       end;
     deriveChainId := chainIdOf;
     ValidateSignatureValues := validate;
     l1CrossDomainMessenger := 0xa85233C63b9Ee964Add6F2cffe00Fd84eb32338f%N |}.

(** A contract creation with the given nonce, as [NewContractCreation]
    builds it: no signature, fresh metadata, empty caches. *)
Definition creation (nonce : Z) : Transaction :=
  NewContractCreation nonce None 21000 None [Byte.x60; Byte.x00].

(** That contract creation of nonce 0 after [Hash], [Size] and
    [SetNonce(200)]. *)
Definition renumbered : Transaction :=
  SetNonce (Size (C := encoding) (Hash (C := encoding) (creation 0)).2).2 200.

(** Two accounts with two transactions each, account 5 paying more. *)
Definition queued : gmap N Transactions :=
  {[ 5%N := [signedTx 0 9 27 5 1; signedTx 1 8 27 5 1];
     6%N := [signedTx 0 4 27 6 1; signedTx 1 3 27 6 1] ]}.

End sample.

(** ** Part II. Properties *)

(** *** The gas-limit encoding *)

Section FeeMath.
Import fees.

Lemma zeroesAndOnes_nonneg_from (data : list byte) (acc : Z * Z) :
  0 ≤ acc.1 → 0 ≤ acc.2 →
  let r := foldl (fun acc b =>
                    if Byte.eqb b Byte.x00 then (acc.1 + 1, acc.2) else (acc.1, acc.2 + 1))
                 acc data in
  0 ≤ r.1 ∧ 0 ≤ r.2.
Proof.
  revert acc. induction data as [|b data IH]; intros acc H1 H2; simpl; [done|].
  apply IH; destruct (Byte.eqb b Byte.x00); simpl; lia.
Qed.

Lemma zeroesAndOnes_nonneg (data : list byte) :
  0 ≤ (zeroesAndOnes data).1 ∧ 0 ≤ (zeroesAndOnes data).2.
Proof. apply (zeroesAndOnes_nonneg_from data (0, 0)); simpl; lia. Qed.

Lemma calculateL1GasLimit_nonneg (data : list byte) (overhead : Z) :
  0 ≤ overhead → 0 ≤ calculateL1GasLimit data overhead.
Proof.
  intros Ho. unfold calculateL1GasLimit.
  pose proof (zeroesAndOnes_nonneg data) as [Hz H1].
  destruct (zeroesAndOnes data) as [zeroes ones]; simpl in *. lia.
Qed.

(** The cost of the specification's examples (section 8). *)
Example calculateL1GasLimit_examples :
  calculateL1GasLimit [] 0 = 0 ∧
  calculateL1GasLimit [] 10 = 10 ∧
  calculateL1GasLimit [Byte.x00; Byte.x00; Byte.x00; Byte.x00] 10 = 26 ∧
  calculateL1GasLimit [Byte.x01; Byte.x02; Byte.x03; Byte.x04] 200 = 264.
Proof. repeat split; reflexivity. Qed.

Lemma Ceilmod_multiple (a b : Z) : 0 < b → Ceilmod a b mod b = 0.
Proof.
  intros Hb. unfold Ceilmod.
  destruct (Z.eqb_spec (a mod b) 0) as [E|E]; [done|].
  pose proof (Z.div_mod a b ltac:(lia)) as Ha.
  replace (a + b - a mod b) with ((a / b + 1) * b) by lia.
  apply Z.mod_mul; lia.
Qed.

Lemma Ceilmod_bounds (a b : Z) : 0 < b → a ≤ Ceilmod a b < a + b.
Proof.
  intros Hb. unfold Ceilmod.
  pose proof (Z.mod_pos_bound a b Hb).
  destruct (Z.eqb_spec (a mod b) 0); lia.
Qed.

Lemma Ceilmod_idempotent (x m : Z) : 0 < m → Ceilmod (Ceilmod x m) m = Ceilmod x m.
Proof.
  intros Hm. pose proof (Ceilmod_multiple x m Hm) as E.
  unfold Ceilmod at 1. by rewrite E.
Qed.

Lemma DecodeL2GasLimit_add (rounded extra : Z) :
  rounded mod BigTenThousand = 0 → 0 ≤ extra < BigTenThousand →
  DecodeL2GasLimit (rounded + extra) = rounded.
Proof.
  unfold DecodeL2GasLimit, BigTenThousand. intros Hr He.
  pose proof (Z.div_mod rounded 10000 ltac:(lia)) as Hd.
  rewrite Hr, Z.add_0_r in Hd.
  generalize dependent (rounded / 10000). intros k ->.
  rewrite (Z.mul_comm 10000 k), Z.div_add_l by lia.
  rewrite (Z.div_small extra) by lia. lia.
Qed.

(** C1.  For every payload, every non-negative overhead, L1 gas price and L2
    gas price and every L2 gas limit: when the L2 gas price is zero, or the
    extra term floor(l1GasPrice x cost / l2GasPrice) is below 10000, decoding
    the encoded gas limit gives the L2 gas limit rounded up to a multiple of
    10000, whatever the payload, the L1 gas price and the overhead are. *)
Theorem C1_decode_encode_roundtrip
    (overhead : Z) (data : list byte) (l1GasPrice l2GasLimit l2GasPrice : Z) :
  0 ≤ overhead → 0 ≤ l1GasPrice → 0 ≤ l2GasPrice →
  (l2GasPrice = 0 ∨
   l1GasPrice * calculateL1GasLimit data overhead / l2GasPrice < 10000) →
  DecodeL2GasLimit (EncodeTxGasLimit overhead data l1GasPrice l2GasLimit l2GasPrice)
  = Ceilmod l2GasLimit BigTenThousand.
Proof.
  intros Ho Hl1 Hl2 Hextra.
  pose proof (Ceilmod_multiple l2GasLimit BigTenThousand ltac:(done)) as Hm.
  unfold EncodeTxGasLimit.
  destruct (Z.eqb_spec l2GasPrice 0) as [E|E].
  - rewrite <- (DecodeL2GasLimit_add (Ceilmod l2GasLimit BigTenThousand) 0) at 2;
      [by rewrite Z.add_0_r | done | unfold BigTenThousand; lia].
  - destruct Hextra as [?|Hlt]; [done|].
    apply DecodeL2GasLimit_add; [done|]. split; [|done].
    apply Z.div_pos; [|lia].
    apply Z.mul_nonneg_nonneg; [done|]. by apply calculateL1GasLimit_nonneg.
Qed.

(** The round trips of [TestCalculateRollupFee]: ten zero bytes of calldata,
    prices in GWei, with the overhead 7400 as an instance. *)
Lemma C1_decode_encode_roundtrip_witness :
  (0 ≤ 7400 ∧ 0 ≤ 1000000000 ∧ 0 ≤ 1000000000) ∧
  1000000000 * calculateL1GasLimit (replicate 10 Byte.x00) 7400 / 1000000000 < 10000 ∧
  DecodeL2GasLimit
    (EncodeTxGasLimit 7400 (replicate 10 Byte.x00) 1000000000 437118 1000000000)
  = Ceilmod 437118 BigTenThousand ∧
  Ceilmod 437118 BigTenThousand = 440000.
Proof.
  split; [lia|]. split; [by vm_compute|]. split; [|reflexivity].
  apply (C1_decode_encode_roundtrip 7400 (replicate 10 Byte.x00)
           1000000000 437118 1000000000); [lia | lia | lia |].
  right. by vm_compute.
Defined.

(** The row of the test table with the L1 price in GWei and the L2 price 1
    has an extra term of 10000 or more: there the decoded value is not the
    rounded limit (overhead 0 as an instance). *)
Example roundtrip_needs_small_extra :
  10000 ≤ 1000000000 * calculateL1GasLimit (replicate 10 Byte.x00) 0 / 1
  ∧ DecodeL2GasLimit (EncodeTxGasLimit 0 (replicate 10 Byte.x00) 1000000000 196205 1)
    ≠ Ceilmod 196205 BigTenThousand.
Proof. split; by vm_compute. Qed.

(** The rounded limits the specification lists for the test table. *)
Example Ceilmod_examples :
  Ceilmod 437118 10000 = 440000 ∧ Ceilmod 196205 10000 = 200000 ∧
  Ceilmod 23255 10000 = 30000 ∧ Ceilmod 10 10000 = 10000 ∧
  Ceilmod 99970000 10000 = 99970000.
Proof. repeat split; reflexivity. Qed.

End FeeMath.

(** *** The fee check *)

Section FeeValidator.
Import fees.

(** The table of [TestPaysEnough]. *)
Example PaysEnough_table :
  PaysEnough (mkPaysEnoughOpts None (Some 0) None None) = Some errMissingInput ∧
  PaysEnough (mkPaysEnoughOpts None None None None) = Some errMissingInput ∧
  PaysEnough (mkPaysEnoughOpts (Some 1) (Some 1) None None) = None ∧
  PaysEnough (mkPaysEnoughOpts (Some 1) (Some 2) None None) = Some ErrFeeTooLow ∧
  PaysEnough (mkPaysEnoughOpts (Some 1) (Some 2) None (Some (1 # 2)%Q)) = None ∧
  PaysEnough (mkPaysEnoughOpts (Some 256) (Some 1) (Some (3 # 2)%Q) None)
    = Some ErrFeeTooHigh ∧
  PaysEnough (mkPaysEnoughOpts (Some 10000) (Some 1) (Some (3 # 1)%Q) (Some (4 # 5)%Q))
    = Some ErrFeeTooHigh ∧
  PaysEnough (mkPaysEnoughOpts (Some 1) (Some 10000) (Some (3 # 1)%Q) (Some (4 # 5)%Q))
    = Some ErrFeeTooLow ∧
  PaysEnough (mkPaysEnoughOpts (Some 0) (Some 10000) (Some (3 # 1)%Q) (Some (4 # 5)%Q))
    = Some ErrFeeTooLow.
Proof. repeat split; reflexivity. Qed.

Lemma PaysEnough_present (userFee expectedFee : Z) (up down : option Q) :
  PaysEnough (mkPaysEnoughOpts (Some userFee) (Some expectedFee) up down)
  ≠ Some errMissingInput.
Proof.
  unfold PaysEnough; simpl.
  destruct (userFee =? expectedFee); [done|].
  destruct up, down; simpl;
    repeat match goal with |- context [if ?b then _ else _] => destruct b end; done.
Qed.

(** C5.  [PaysEnough] fails with the missing-input error exactly when the
    user fee or the expected fee is the nil sentinel; a present fee, zero
    included, never does. *)
Theorem C5_missing_input_iff_absent (opts : PaysEnoughOpts) :
  (PaysEnough opts = Some errMissingInput ↔ UserFee opts = None ∨ ExpectedFee opts = None)
  ∧ ∀ up down, PaysEnough (mkPaysEnoughOpts (Some 0) (Some 0) up down) ≠ Some errMissingInput.
Proof.
  split; [|intros; apply PaysEnough_present].
  destruct opts as [[u|] [e|] up down]; simpl; split; intros Hx;
    try (by left); try (by right); try done.
  - by apply PaysEnough_present in Hx.
  - by destruct Hx.
Qed.

End FeeValidator.

(** *** Messages derived from transactions *)

Section MessageDeriver.
Import common types.
Context {C : Collaborators}.

(** Opens [AsMessage] on a transaction given by its fields, by cases on V,
    on the result of the recovery and on the stored L1 message sender. *)
Ltac asmessage_cases tx :=
  unfold AsMessage, Sender, SetTransactionMeta, GetMeta;
  destruct tx as [d [bn ts ms qo ix qi raw] h sz]; simpl;
  destruct (SigV d =? 0); simpl;
  destruct (recoverSender _ d) as [from err]; simpl;
  try destruct ms; simpl.

Lemma AsMessage_data (tx : Transaction) (s : Signer) :
  tx_data (AsMessage tx s).1.1 = tx_data tx ∧
  tx_hash (AsMessage tx s).1.1 = tx_hash tx ∧
  tx_size (AsMessage tx s).1.1 = tx_size tx.
Proof. asmessage_cases tx; done. Qed.

Lemma AsMessage_error (tx : Transaction) (s : Signer) :
  (AsMessage tx s).2 = (Sender s tx).2 ∧
  msg_from (AsMessage tx s).1.2 = (Sender s tx).1.
Proof. asmessage_cases tx; done. Qed.

(** C3 (amended).  For a transaction whose V is zero, [AsMessage] stores the
    metadata: L1 block number 0, L1 timestamp 0, L1 message sender the
    configured messenger address, queue origin L1ToL2, index 0 and queue
    index 0 whatever they were before, raw transaction the payload; and the
    message has queue origin L1ToL2 and the messenger as its present L1
    message sender.  For a transaction whose V is not zero the message has
    queue origin Sequencer. *)
Theorem C3_asmessage_origin_metadata (tx : Transaction) (s : Signer) :
  let '(tx', msg, _) := AsMessage tx s in
  if SigV (tx_data tx) =? 0 then
    tx_meta tx' =
      {| meta_L1BlockNumber := Some 0;
         meta_L1Timestamp := 0;
         meta_L1MessageSender := Some l1CrossDomainMessenger;
         meta_QueueOrigin := QueueOriginL1ToL2;
         meta_Index := Some 0;
         meta_QueueIndex := Some 0;
         meta_RawTransaction := Payload (tx_data tx) |}
    ∧ msg_queueOrigin msg = QueueOriginL1ToL2
    ∧ msg_l1MessageSender msg = Some l1CrossDomainMessenger
  else
    msg_queueOrigin msg = QueueOriginSequencer.
Proof. asmessage_cases tx; done. Qed.

(** C4.  When the sender recovery fails with the error [e], returning the
    address [a], [AsMessage] returns [e] together with a message: its core
    fields are those of the transaction, its sender is [a], and its L1
    fields are read from the metadata just stored.  The transaction it
    leaves behind carries the whole metadata of its origin branch, the L1
    branch for V = 0 and the sequencer branch otherwise; the core fields
    and the caches are untouched, and [GetMeta] reads the new metadata
    back. *)
Theorem C4_asmessage_recovery_failure
    (tx : Transaction) (s : Signer) (a : Address) (e : error) :
  Sender s tx = (a, Some e) →
  let stored :=
    if SigV (tx_data tx) =? 0 then
      {| meta_L1BlockNumber := Some 0;
         meta_L1Timestamp := 0;
         meta_L1MessageSender := Some l1CrossDomainMessenger;
         meta_QueueOrigin := QueueOriginL1ToL2;
         meta_Index := Some 0;
         meta_QueueIndex := Some 0;
         meta_RawTransaction := Payload (tx_data tx) |}
    else
      {| meta_L1BlockNumber := Some 0;
         meta_L1Timestamp := meta_L1Timestamp (tx_meta tx);
         meta_L1MessageSender := meta_L1MessageSender (tx_meta tx);
         meta_QueueOrigin := QueueOriginSequencer;
         meta_Index := Some (default 0 (meta_Index (tx_meta tx)));
         meta_QueueIndex := Some (default 0 (meta_QueueIndex (tx_meta tx)));
         meta_RawTransaction := Payload (tx_data tx) |} in
  AsMessage tx s =
    ({| tx_data := tx_data tx; tx_meta := stored;
        tx_hash := tx_hash tx; tx_size := tx_size tx |},
     {| msg_to := Recipient (tx_data tx);
        msg_from := a;
        msg_nonce := AccountNonce (tx_data tx);
        msg_amount := Amount (tx_data tx);
        msg_gasLimit := GasLimit (tx_data tx);
        msg_gasPrice := Price (tx_data tx);
        msg_data := Payload (tx_data tx);
        msg_checkNonce := true;
        msg_l1Timestamp := meta_L1Timestamp stored;
        msg_l1BlockNumber := Some 0;
        msg_l1MessageSender := Some (default 0%N (meta_L1MessageSender stored));
        msg_queueOrigin := meta_QueueOrigin stored |},
     Some e)
  ∧ GetMeta (AsMessage tx s).1.1 = stored.
Proof.
  intros Hs. revert Hs. asmessage_cases tx; intros [= -> ->];
    destruct ix, qi; simpl; by split.
Qed.

(** C9.  When the metadata [AsMessage] stored has no L1 message sender, the
    message carries the zero address; the L1 message sender of a message
    from [AsMessage] is never nil. *)
Theorem C9_message_l1sender_present (tx : Transaction) (s : Signer) :
  let '(tx', msg, _) := AsMessage tx s in
  msg_l1MessageSender msg = Some (default 0%N (meta_L1MessageSender (tx_meta tx')))
  ∧ is_Some (msg_l1MessageSender msg).
Proof. asmessage_cases tx; eauto. Qed.

End MessageDeriver.

Section MessageDeriverInstances.
Import common types.

(** A deposit that already has an index keeps it under the specification's
    wording and loses it in [AsMessage]. *)
Lemma C3_deposit_index_overwritten :
  SigV (tx_data sample.depositTx) = 0
  ∧ meta_Index (tx_meta sample.depositTx) = Some 7
  ∧ meta_Index (tx_meta
       (AsMessage (C := sample.standard)
                  sample.depositTx tt).1.1) = Some 0
  ∧ meta_Index (spec_l1Metadata (C := sample.standard)
       (tx_meta sample.depositTx) (Payload (tx_data sample.depositTx))) = Some 7
  ∧ tx_meta (AsMessage (C := sample.standard)
               sample.depositTx tt).1.1
    ≠ spec_l1Metadata (C := sample.standard)
        (tx_meta sample.depositTx) (Payload (tx_data sample.depositTx)).
Proof. repeat split; try reflexivity. by vm_compute. Qed.

(** A transaction whose recovery fails (R = 0 for the sample signer): the
    error comes back with the message, and the metadata read afterwards is
    the sequencer branch's, with the index and the queue index now 0. *)
Lemma C4_asmessage_recovery_failure_witness :
  Sender (C := sample.standard) tt (sample.signedTx 3 1 27 0 5)
  = (0%N, Some (ErrCollaborator 1))
  ∧ (AsMessage (C := sample.standard)
       (sample.signedTx 3 1 27 0 5) tt).2 = Some (ErrCollaborator 1)
  ∧ msg_nonce (AsMessage (C := sample.standard)
                 (sample.signedTx 3 1 27 0 5) tt).1.2 = 3
  ∧ GetMeta (sample.signedTx 3 1 27 0 5)
    = NewTransactionMeta None 0 None QueueOriginSequencer None None []
  ∧ GetMeta (AsMessage (C := sample.standard)
               (sample.signedTx 3 1 27 0 5) tt).1.1
    = NewTransactionMeta (Some 0) 0 None QueueOriginSequencer (Some 0) (Some 0)
        [Byte.x01; Byte.x00].
Proof.
  pose proof (C4_asmessage_recovery_failure
                (C := sample.standard)
                (sample.signedTx 3 1 27 0 5) tt 0%N (ErrCollaborator 1)
                eq_refl) as [Hw Hm].
  split; [reflexivity|]. rewrite Hm, Hw. by repeat split.
Defined.

End MessageDeriverInstances.

(** *** Decoding and the signature check *)

Section Decoding.
Import common types.
Context {C : Collaborators}.

Lemma withSignature_false (d : txdata) :
  withSignature d = false ↔ SigV d = 0 ∧ SigR d = 0 ∧ SigS d = 0.
Proof.
  unfold withSignature.
  destruct (Z.eqb_spec (SigV d) 0), (Z.eqb_spec (SigR d) 0), (Z.eqb_spec (SigS d) 0);
    simpl; intuition congruence.
Qed.

(** [DecodeRLP] returns the error of the stream's decode and no other. *)
Lemma DecodeRLP_error (tx : Transaction) (s : Stream) :
  (DecodeRLP tx s).2 = (streamDecode s (tx_data tx)).2.
Proof. unfold DecodeRLP. by destruct (streamDecode _ _) as [d [e|]]. Qed.

(** C7 (amended).  [UnmarshalJSON] returns the error of the JSON decode of
    the core fields when there is one.  Once the core fields decode, it
    succeeds on an all-zero signature without consulting the validation,
    succeeds on a non-zero signature that [ValidateSignatureValues] accepts
    with the recovery byte derived from V, and fails with [ErrInvalidSig]
    on one it rejects.  [DecodeRLP] makes no signature check: its error is
    the error of the stream's decode, so it succeeds exactly when the
    stream's decode succeeds, and it fails with [ErrInvalidSig] only when
    the stream itself returned that error.  Either decoder leaves the
    decoded core fields in the transaction. *)
Theorem C7_signature_check_on_decode
    (tx : Transaction) (input : list byte) (s : Stream) :
  ((UnmarshalJSON tx input).2 =
     match txdataUnmarshalJSON input (tx_data tx) with
     | (_, Some e) => Some e
     | (dj, None) =>
         if decide (SigV dj = 0 ∧ SigR dj = 0 ∧ SigS dj = 0) then None
         else if ValidateSignatureValues (recoveryByte dj) (SigR dj) (SigS dj) false
              then None else Some ErrInvalidSig
     end
   ∧ tx_data (UnmarshalJSON tx input).1 = (txdataUnmarshalJSON input (tx_data tx)).1)
  ∧ ((DecodeRLP tx s).2 = (streamDecode s (tx_data tx)).2
     ∧ ((DecodeRLP tx s).2 = None ↔ (streamDecode s (tx_data tx)).2 = None)
     ∧ ((DecodeRLP tx s).2 = Some ErrInvalidSig
        ↔ (streamDecode s (tx_data tx)).2 = Some ErrInvalidSig)
     ∧ tx_data (DecodeRLP tx s).1 = (streamDecode s (tx_data tx)).1).
Proof.
  split.
  - unfold UnmarshalJSON.
    destruct (txdataUnmarshalJSON input (tx_data tx)) as [dj [e|]]; simpl; [done|].
    pose proof (withSignature_false dj) as Hw.
    destruct (withSignature dj); case_decide as Hz.
    + destruct Hw as [_ Hw]. by specialize (Hw Hz).
    + by destruct (ValidateSignatureValues _ _ _ _).
    + done.
    + destruct Hw as [Hw _]. by specialize (Hw eq_refl).
  - assert ((DecodeRLP tx s).2 = (streamDecode s (tx_data tx)).2) as He.
    { unfold DecodeRLP. by destruct (streamDecode _ _) as [d [e|]]. }
    split; [exact He|]. rewrite He. split; [done|]. split; [done|].
    unfold DecodeRLP. by destruct (streamDecode _ _) as [d [e|]].
Qed.

End Decoding.

Section DecodingInstances.
Import common types.

(** Both decoders on core fields with the signature (27, 5, 0), which is
    not zero and fails the validation: JSON refuses, RLP accepts. *)
Lemma C7_signature_check_on_decode_witness :
  (UnmarshalJSON (C := sample.standard)
     (sample.signedTx 0 0 0 0 0) [Byte.x7b]).2 = Some ErrInvalidSig
  ∧ (DecodeRLP (C := sample.standard)
       (sample.signedTx 0 0 0 0 0) true).2 = None
  ∧ tx_data (DecodeRLP (C := sample.standard)
               (sample.signedTx 0 0 0 0 0) true).1 = sample.badSignature.
Proof.
  pose proof (C7_signature_check_on_decode
                (C := sample.standard)
                (sample.signedTx 0 0 0 0 0) [Byte.x7b] true)
    as ((Hj & _) & (Hr & _ & _ & Hd)).
  split; [exact Hj|]. split; [exact Hr | exact Hd].
Defined.

(** The RLP path accepts a transaction whose non-zero signature fails the
    validation. *)
Lemma C7_rlp_accepts_invalid_signature :
  withSignature sample.badSignature = true
  ∧ ValidateSignatureValues (Collaborators := sample.standard)
      (recoveryByte (C := sample.standard) sample.badSignature)
      (SigR sample.badSignature) (SigS sample.badSignature) false = false
  ∧ tx_data (DecodeRLP (C := sample.standard)
               (sample.signedTx 0 0 0 0 0) true).1 = sample.badSignature
  ∧ (DecodeRLP (C := sample.standard)
       (sample.signedTx 0 0 0 0 0) true).2 = None
  ∧ (DecodeRLP (C := sample.standard)
       (sample.signedTx 0 0 0 0 0) true).2 ≠ Some ErrInvalidSig.
Proof. repeat split; try reflexivity. by vm_compute. Qed.

End DecodingInstances.

(** *** The hash and size caches *)

Section Caches.
Import common types.
Context {C : Collaborators}.

(** Under coherent caches [Hash] and [Size] are functions of the core
    fields. *)
Lemma Hash_coherent (tx : Transaction) :
  cacheCoherent tx → (Hash tx).1 = keccak256 (rlpEncode (tx_data tx)).
Proof.
  intros [Hh _]. unfold Hash. destruct (tx_hash tx) as [h|] eqn:E; [|done].
  simpl. by rewrite (Hh h).
Qed.

Lemma Size_coherent (tx : Transaction) :
  cacheCoherent tx → (Size tx).1 = Z.of_nat (length (rlpEncode (tx_data tx))).
Proof.
  intros [_ Hs]. unfold Size. destruct (tx_size tx) as [n|] eqn:E; [|done].
  simpl. by rewrite (Hs n).
Qed.

(** [Hash] and [Size] read the core fields and their own cache only. *)
Lemma Hash_reads (tx1 tx2 : Transaction) :
  tx_data tx1 = tx_data tx2 → tx_hash tx1 = tx_hash tx2 → (Hash tx1).1 = (Hash tx2).1.
Proof.
  unfold Hash, rlpHash, EncodeRLP. intros -> ->. by destruct (tx_hash tx2).
Qed.

Lemma Size_reads (tx1 tx2 : Transaction) :
  tx_data tx1 = tx_data tx2 → tx_size tx1 = tx_size tx2 → (Size tx1).1 = (Size tx2).1.
Proof. unfold Size. intros -> ->. by destruct (tx_size tx2). Qed.

(** A second call returns the stored value and changes nothing. *)
Lemma Hash_memoized (tx : Transaction) : Hash (Hash tx).2 = ((Hash tx).1, (Hash tx).2).
Proof. unfold Hash. destruct (tx_hash tx) eqn:E; simpl; by rewrite ?E. Qed.

Lemma Size_memoized (tx : Transaction) : Size (Size tx).2 = ((Size tx).1, (Size tx).2).
Proof. unfold Size. destruct (tx_size tx) eqn:E; simpl; by rewrite ?E. Qed.

(** New transactions have coherent caches, and the operations that leave
    the core fields alone keep them coherent. *)
Lemma newTransaction_coherent nonce to amount gasLimit gasPrice data :
  cacheCoherent (newTransaction nonce to amount gasLimit gasPrice data).
Proof. split; intros ? [=]. Qed.

Lemma Hash_keeps_coherent (tx : Transaction) : cacheCoherent tx → cacheCoherent (Hash tx).2.
Proof.
  intros Hc. unfold Hash. destruct (tx_hash tx) eqn:E; [exact Hc|].
  split; simpl; [by intros ? [= <-] | exact (proj2 Hc)].
Qed.

Lemma Size_keeps_coherent (tx : Transaction) : cacheCoherent tx → cacheCoherent (Size tx).2.
Proof.
  intros Hc. unfold Size. destruct (tx_size tx) eqn:E; [exact Hc|].
  split; simpl; [exact (proj1 Hc) | by intros ? [= <-]].
Qed.

Lemma SetTransactionMeta_keeps_coherent (tx : Transaction) (m : option TransactionMeta) :
  cacheCoherent tx → cacheCoherent (SetTransactionMeta tx m).
Proof. by destruct m. Qed.

Lemma AsMessage_keeps_coherent (tx : Transaction) (s : Signer) :
  cacheCoherent tx → cacheCoherent (AsMessage tx s).1.1.
Proof.
  destruct (AsMessage_data tx s) as (Hd & Hh & Hs). unfold cacheCoherent, rlpHash, EncodeRLP.
  rewrite Hd, Hh, Hs. tauto.
Qed.

(** [Hash] and [Size] do not read the metadata.  Two transactions with the
    same core fields, whose caches are empty or hold what [Hash] and [Size]
    compute from those fields, have the same hash and the same size,
    whatever their metadata.  For every transaction, coherent or not:
    replacing the metadata, through [SetTransactionMeta] or [AsMessage],
    before or after the hash or the size was computed does not change
    either; the first call stores what it returns, and a repeated call
    returns the stored value and leaves the transaction as it is. *)
Theorem caches_ignore_metadata
    (tx1 tx2 : Transaction) (m : option TransactionMeta) (s : Signer) :
  (cacheCoherent tx1 → cacheCoherent tx2 → tx_data tx1 = tx_data tx2 →
   (Hash tx1).1 = (Hash tx2).1 ∧ (Size tx1).1 = (Size tx2).1)
  ∧ ((Hash (SetTransactionMeta tx1 m)).1 = (Hash tx1).1
     ∧ (Hash (SetTransactionMeta (Hash tx1).2 m)).1 = (Hash tx1).1
     ∧ (Hash (AsMessage tx1 s).1.1).1 = (Hash tx1).1
     ∧ (Hash (AsMessage (Hash tx1).2 s).1.1).1 = (Hash tx1).1)
  ∧ ((Size (SetTransactionMeta tx1 m)).1 = (Size tx1).1
     ∧ (Size (SetTransactionMeta (Size tx1).2 m)).1 = (Size tx1).1
     ∧ (Size (AsMessage tx1 s).1.1).1 = (Size tx1).1
     ∧ (Size (AsMessage (Size tx1).2 s).1.1).1 = (Size tx1).1)
  ∧ (tx_hash (Hash tx1).2 = Some (Hash tx1).1
     ∧ Hash (Hash tx1).2 = ((Hash tx1).1, (Hash tx1).2)
     ∧ tx_size (Size tx1).2 = Some (Size tx1).1
     ∧ Size (Size tx1).2 = ((Size tx1).1, (Size tx1).2)).
Proof.
  split; [|split; [|split; [|split; [|split; [|split]]]]].
  - intros H1 H2 Hd. rewrite !Hash_coherent, !Size_coherent by done. by rewrite Hd.
  - pose proof (Hash_memoized tx1) as Hm. apply (f_equal fst) in Hm; simpl in Hm.
    destruct (AsMessage_data tx1 s) as (? & ? & _).
    destruct (AsMessage_data (Hash tx1).2 s) as (? & ? & _).
    repeat split.
    + apply Hash_reads; by destruct m.
    + etrans; [|exact Hm]. apply Hash_reads; by destruct m.
    + by apply Hash_reads.
    + etrans; [|exact Hm]. by apply Hash_reads.
  - pose proof (Size_memoized tx1) as Hm. apply (f_equal fst) in Hm; simpl in Hm.
    destruct (AsMessage_data tx1 s) as (? & _ & ?).
    destruct (AsMessage_data (Size tx1).2 s) as (? & _ & ?).
    repeat split.
    + apply Size_reads; by destruct m.
    + etrans; [|exact Hm]. apply Size_reads; by destruct m.
    + by apply Size_reads.
    + etrans; [|exact Hm]. by apply Size_reads.
  - unfold Hash. by destruct (tx_hash tx1) eqn:E.
  - apply Hash_memoized.
  - unfold Size. by destruct (tx_size tx1) eqn:E.
  - apply Size_memoized.
Qed.

End Caches.

Section CachesInstances.
Import common types.

(** Two transactions with the same core fields, one of them with an index
    in its metadata. *)
Lemma caches_ignore_metadata_witness :
  tx_meta (SetIndex (sample.signedTx 1 2 27 5 6) 9) ≠ tx_meta (sample.signedTx 1 2 27 5 6)
  ∧ (Hash (C := sample.standard) (sample.signedTx 1 2 27 5 6)).1
    = (Hash (C := sample.standard)
         (SetIndex (sample.signedTx 1 2 27 5 6) 9)).1
  ∧ (Size (C := sample.standard) (sample.signedTx 1 2 27 5 6)).1
    = (Size (C := sample.standard)
         (SetIndex (sample.signedTx 1 2 27 5 6) 9)).1.
Proof.
  split; [by vm_compute|].
  refine (proj1 (caches_ignore_metadata
                   (C := sample.standard)
                   (sample.signedTx 1 2 27 5 6)
                   (SetIndex (sample.signedTx 1 2 27 5 6) 9) None tt) _ _ eq_refl);
    split; intros ? [=].
Defined.

(** C8.  The claim fails on the code after [SetNonce].  A contract creation
    with nonce 0 is hashed and sized, and its nonce is then set to 200: its
    core fields are those of a fresh contract creation with nonce 200, yet
    [Hash] and [Size] return what was stored for nonce 0, which is neither
    the hash and size of the fresh transaction nor the hash and size of its
    own RLP encoding. *)
Lemma C8_stale_caches_after_SetNonce :
  sample.renumbered
  = SetNonce (Size (C := sample.encoding)
                (Hash (C := sample.encoding) (sample.creation 0)).2).2 200
  ∧ tx_data sample.renumbered = tx_data (sample.creation 200)
  ∧ (Hash (C := sample.encoding) sample.renumbered).1
    = (Hash (C := sample.encoding) (sample.creation 0)).1
  ∧ (Hash (C := sample.encoding) sample.renumbered).1
    ≠ (Hash (C := sample.encoding) (sample.creation 200)).1
  ∧ (Hash (C := sample.encoding) sample.renumbered).1
    ≠ rlpHash (C := sample.encoding) sample.renumbered
  ∧ (Size (C := sample.encoding) sample.renumbered).1 = 3
  ∧ (Size (C := sample.encoding) (sample.creation 200)).1 = 4
  ∧ Z.of_nat (length (EncodeRLP (C := sample.encoding) sample.renumbered)) = 4.
Proof.
  split; [reflexivity|]. split; [reflexivity|]. split; [reflexivity|].
  split; [by vm_compute|]. split; [by vm_compute|].
  split; [reflexivity|]. split; reflexivity.
Qed.

End CachesInstances.

(** *** The heap operations on a slice *)

Section HeapFacts.
Context {A : Type} (less : A → A → bool).
Implicit Types (h : list A) (i j k n : nat).

Lemma Less_is_Some h i j :
  (i < length h)%nat → (j < length h)%nat → is_Some (heap.Less less h i j).
Proof.
  intros [x Hx]%lookup_lt_is_Some [y Hy]%lookup_lt_is_Some.
  unfold heap.Less. rewrite Hx, Hy. simpl. eauto.
Qed.

Lemma Swap_is_Some h i j :
  (i < length h)%nat → (j < length h)%nat → is_Some (heap.Swap h i j).
Proof.
  intros [x Hx]%lookup_lt_is_Some [y Hy]%lookup_lt_is_Some.
  unfold heap.Swap. rewrite Hx, Hy. simpl. eauto.
Qed.

(** A swap permutes the slice and touches the two positions only. *)
Lemma Swap_Some h i j h' :
  heap.Swap h i j = Some h' →
  h' ≡ₚ h ∧ length h' = length h ∧
  h' !! j = h !! i ∧
  (∀ k, k ≠ i → k ≠ j → h' !! k = h !! k).
Proof.
  unfold heap.Swap. intros Hs.
  apply bind_Some in Hs as (x & Hx & Hs). apply bind_Some in Hs as (y & Hy & [= <-]).
  split; [by apply Permutation_insert_swap|].
  split; [by rewrite !length_insert|].
  split.
  - rewrite list_lookup_insert_eq, Hx; [done|].
    rewrite length_insert. by eapply lookup_lt_Some.
  - intros k Hi Hj. by rewrite !list_lookup_insert_ne.
Qed.

(** Sifting down permutes the slice and leaves the positions from [n] on
    alone. *)
Lemma down_loop_Some fuel h i n h' i' :
  heap.down_loop less fuel h i n = Some (h', i') →
  h' ≡ₚ h ∧ length h' = length h ∧ (∀ k, (n ≤ k)%nat → h' !! k = h !! k).
Proof.
  revert h i. induction fuel as [|fuel IH]; intros h i; simpl; [done|].
  case_decide as Hn; [by intros [= <- <-]|].
  intros Hd. apply bind_Some in Hd as (r & Hr & Hd).
  apply bind_Some in Hd as (c & _ & Hd).
  destruct c; simpl in Hd; [|by injection Hd as <- <-].
  apply bind_Some in Hd as (h1 & Hs & Hd).
  apply Swap_Some in Hs as (Hp & Hl & _ & Hk).
  apply IH in Hd as (Hp' & Hl' & Hk').
  split; [by rewrite Hp'|]. split; [congruence|].
  intros k Hle. rewrite Hk' by done. apply Hk; [lia|].
  destruct r; [|lia]. case_decide; [lia|done].
Qed.

(** Sifting down on a slice of at least [n] elements never indexes out of
    range, and [n - i + 1] iterations are enough. *)
Lemma down_loop_total fuel h i n :
  (n ≤ length h)%nat → (n - i < fuel)%nat →
  is_Some (heap.down_loop less fuel h i n).
Proof.
  revert h i. induction fuel as [|fuel IH]; intros h i Hlen Hfuel; [lia|].
  cbn [heap.down_loop]. case_decide as Hn; [by eauto|].
  assert (is_Some (if decide (2 * i + 1 + 1 < n)%nat
                   then heap.Less less h (2 * i + 1 + 1) (2 * i + 1)
                   else Some false)) as [r Hr].
  { case_decide; [apply Less_is_Some; lia | by eauto]. }
  rewrite Hr. cbn [mbind option_bind].
  set (j := if r then (2 * i + 1 + 1)%nat else (2 * i + 1)%nat).
  assert (i < j ∧ j < n)%nat as [Hij Hjn].
  { subst j. destruct r; [|lia]. case_decide; [lia|]. by injection Hr. }
  destruct (Less_is_Some h j i) as [c Hc]; [lia..|].
  rewrite Hc. cbn [mbind option_bind]. destruct c; cbn [negb]; [|by eauto].
  destruct (Swap_is_Some h i j) as [h1 Hs]; [lia..|].
  rewrite Hs. cbn [mbind option_bind]. apply IH; [|lia].
  apply Swap_Some in Hs as (_ & -> & _). done.
Qed.

Lemma down_Some h i n h' moved :
  heap.down less h i n = Some (h', moved) →
  h' ≡ₚ h ∧ length h' = length h ∧ (∀ k, (n ≤ k)%nat → h' !! k = h !! k).
Proof.
  unfold heap.down. intros Hd.
  apply bind_Some in Hd as ([h1 i1] & Hd & [= <- _]).
  by eapply down_loop_Some.
Qed.

Lemma down_total h i n : (n ≤ length h)%nat → is_Some (heap.down less h i n).
Proof.
  intros Hn. unfold heap.down.
  destruct (down_loop_total (S n) h i n) as [[h1 i1] ->]; [done|lia|].
  simpl. eauto.
Qed.

Lemma parent_lt j : (0 < j)%nat → (heap.parent j < j)%nat.
Proof.
  intros Hj. unfold heap.parent.
  rewrite Z.quot_div_nonneg by lia.
  pose proof (Z.div_pos (Z.of_nat j - 1) 2 ltac:(lia) ltac:(lia)).
  pose proof (Z.mul_div_le (Z.of_nat j - 1) 2 ltac:(lia)).
  lia.
Qed.

Lemma parent_0 : heap.parent 0 = 0%nat.
Proof. reflexivity. Qed.

Lemma up_loop_Some fuel h j h' :
  heap.up_loop less fuel h j = Some h' → h' ≡ₚ h ∧ length h' = length h.
Proof.
  revert h j. induction fuel as [|fuel IH]; intros h j; simpl; [done|].
  case_decide; [by intros [= <-]|].
  intros Hu. apply bind_Some in Hu as (c & _ & Hu).
  destruct c; simpl in Hu; [|by injection Hu as <-].
  apply bind_Some in Hu as (h1 & Hs & Hu).
  apply Swap_Some in Hs as (Hp & Hl & _).
  apply IH in Hu as (Hp' & Hl'). split; [by rewrite Hp'|congruence].
Qed.

Lemma up_loop_total fuel h j :
  (j < length h)%nat → (j < fuel)%nat → is_Some (heap.up_loop less fuel h j).
Proof.
  revert h j. induction fuel as [|fuel IH]; intros h j Hlen Hfuel; [lia|].
  cbn [heap.up_loop]. case_decide as Hp; [by eauto|].
  assert (heap.parent j < j)%nat as Hlt.
  { apply parent_lt. destruct j; [by rewrite parent_0 in Hp|lia]. }
  destruct (Less_is_Some h j (heap.parent j)) as [c Hc]; [lia..|].
  rewrite Hc. cbn [mbind option_bind]. destruct c; cbn [negb]; [|by eauto].
  destruct (Swap_is_Some h (heap.parent j) j) as [h1 Hs]; [lia..|].
  rewrite Hs. cbn [mbind option_bind]. apply IH; [|lia].
  apply Swap_Some in Hs as (_ & -> & _). lia.
Qed.

Lemma Init_loop_Some k h n h' :
  heap.Init_loop less k h n = Some h' → h' ≡ₚ h ∧ length h' = length h.
Proof.
  revert h. induction k as [|k IH]; intros h; simpl; [by intros [= <-]|].
  intros Hi. apply bind_Some in Hi as ([h1 m] & Hd & Hi).
  apply down_Some in Hd as (Hp & Hl & _).
  apply IH in Hi as (Hp' & Hl'). split; [by rewrite Hp'|congruence].
Qed.

Lemma Init_loop_total k h n :
  (n ≤ length h)%nat → is_Some (heap.Init_loop less k h n).
Proof.
  revert h. induction k as [|k IH]; intros h Hn; simpl; [by eauto|].
  destruct (down_total h k n Hn) as [[h1 m] Hd]. rewrite Hd. simpl.
  apply IH. apply down_Some in Hd as (_ & -> & _). done.
Qed.

(** [heap.Init] returns, with a permutation of the slice. *)
Lemma Init_Some h h' : heap.Init less h = Some h' → h' ≡ₚ h.
Proof. intros Hi. by apply Init_loop_Some in Hi as [? _]. Qed.

Lemma Init_total h : is_Some (heap.Init less h).
Proof. by apply Init_loop_total. Qed.

(** [heap.Fix] returns a permutation of the slice, and returns whenever the
    index is in range. *)
Lemma Fix_Some h i h' : heap.Fix less h i = Some h' → h' ≡ₚ h.
Proof.
  unfold heap.Fix. intros Hf.
  apply bind_Some in Hf as ([h1 m] & Hd & Hf).
  apply down_Some in Hd as (Hp & _).
  destruct m; simpl in Hf; [by injection Hf as <-|].
  apply up_loop_Some in Hf as (Hp' & _). by rewrite Hp'.
Qed.

Lemma Fix_total h i : (i < length h)%nat → is_Some (heap.Fix less h i).
Proof.
  intros Hi. unfold heap.Fix.
  destruct (down_total h i (length h)) as [[h1 m] Hd]; [done|].
  rewrite Hd. simpl. destruct m; simpl; [by eauto|].
  apply up_loop_total; [|lia].
  apply down_Some in Hd as (_ & -> & _). done.
Qed.

(** [heap.Pop] removes the element at index 0 and returns it; the rest is
    kept, in some order. *)
Lemma Pop_Some h x h' :
  heap.Pop less h = Some (x, h') → h !! 0%nat = Some x ∧ h ≡ₚ x :: h'.
Proof.
  unfold heap.Pop. destruct (length h) as [|n] eqn:Hlen; [done|].
  intros Hp. apply bind_Some in Hp as (h1 & Hs & Hp).
  apply bind_Some in Hp as ([h2 m] & Hd & Hp).
  apply Swap_Some in Hs as (Hp1 & Hl1 & Hn1 & _).
  apply down_Some in Hd as (Hp2 & Hl2 & Hk2).
  unfold heap.PopBack in Hp.
  rewrite Hl2, Hl1, Hlen in Hp.
  apply bind_Some in Hp as (y & Hy & [= <- <-]).
  rewrite Hk2, Hn1 in Hy by done. split; [done|].
  rewrite <- Hp1, <- Hp2.
  rewrite <- (take_drop n h2) at 1.
  assert (drop n h2 = [y]) as ->.
  { apply list_eq. intros [|k]; rewrite lookup_drop.
    - rewrite Nat.add_0_r, Hk2, Hn1 by done. done.
    - simpl. apply lookup_ge_None. lia. }
  by rewrite Permutation_app_comm.
Qed.

Lemma Pop_total h : h ≠ [] → is_Some (heap.Pop less h).
Proof.
  intros Hne. unfold heap.Pop.
  destruct (length h) as [|n] eqn:Hlen; [by destruct h|].
  destruct (Swap_is_Some h 0 n) as [h1 Hs]; [lia..|].
  rewrite Hs. simpl. apply Swap_Some in Hs as (_ & Hl1 & _).
  destruct (down_total h1 0 n) as [[h2 m] Hd]; [lia|].
  rewrite Hd. simpl. apply down_Some in Hd as (_ & Hl2 & _).
  unfold heap.PopBack. rewrite Hl2, Hl1, Hlen.
  destruct (lookup_lt_is_Some_2 h2 n) as [y Hy]; [lia|].
  rewrite Hy. simpl. eauto.
Qed.

Lemma Pop_nil : heap.Pop less [] = None.
Proof. reflexivity. Qed.

End HeapFacts.

(** *** The price-and-nonce selector *)

Section Selector.
Import common types.
Context {C : Collaborators}.
Implicit Types (s : Signer) (m : gmap N Transactions) (t : TransactionsByPriceAndNonce).

Lemma keyedBySender_lookup s m a tx0 rest :
  keyedBySender s m → m !! a = Some (tx0 :: rest) →
  senderOf s tx0 = a ∧ Forall (λ tx, senderOf s tx = a) rest.
Proof.
  intros Hk Ha. specialize (Hk a _ Ha). simpl in Hk. by apply Forall_cons in Hk.
Qed.

(** The loop of the constructor over a map keyed by sender: a visited key
    keeps the tail of its list, and its first transaction is a head. *)
Lemma collectHead_foldl s m order st :
  keyedBySender s m →
  NoDup order →
  keyedBySender s st.1 →
  (∀ k, k ∈ order → st.1 !! k = m !! k) →
  NoDup (senderOf s <$> st.2) →
  (∀ h, h ∈ st.2 →
     (senderOf s h ∉ order) ∧
     m !! senderOf s h = Some (h :: default [] (st.1 !! senderOf s h))) →
  let st' := foldl (collectHead s) st order in
  keyedBySender s st'.1
  ∧ NoDup (senderOf s <$> st'.2)
  ∧ ∀ h, h ∈ st'.2 → m !! senderOf s h = Some (h :: default [] (st'.1 !! senderOf s h)).
Proof.
  intros Hm. revert st.
  induction order as [|k order IH]; intros [cur hs] Hnd Hcur Hsame Hhs Hheads; simpl in *.
  { split; [done|]. split; [done|]. intros h Hh. by apply Hheads. }
  apply NoDup_cons in Hnd as [Hk Hnd].
  assert (cur !! k = m !! k) as Hcurk by (apply Hsame; left).
  set (st1 := collectHead s (cur, hs) k).
  assert (keyedBySender s st1.1
          ∧ (∀ k', k' ∈ order → st1.1 !! k' = m !! k')
          ∧ NoDup (senderOf s <$> st1.2)
          ∧ ∀ h, h ∈ st1.2 →
              (senderOf s h ∉ order) ∧
              m !! senderOf s h = Some (h :: default [] (st1.1 !! senderOf s h)))
    as (H1 & H2 & H3 & H4); [|by apply IH].
  unfold st1, collectHead. simpl.
  destruct (cur !! k) as [[|tx0 rest]|] eqn:Hlook; simpl.
  1,3: split; [done|]; split; [by intros; apply Hsame; right|]; split; [done|];
       intros h Hh; destruct (Hheads h Hh) as [Hno ?]; split; [|done];
       by intros ?; apply Hno; right.
  destruct (keyedBySender_lookup s cur k tx0 rest Hcur Hlook) as [Hacc Hrest].
  rewrite Hacc. rewrite decide_True by done.
  split; [by apply map_Forall_insert_2|]. split; [|split].
  - intros k' Hk'. rewrite lookup_insert_ne by (by intros ->). apply Hsame. by right.
  - rewrite fmap_app. apply NoDup_app. split; [done|]. split; [|apply NoDup_singleton].
    intros a Ha. apply list_elem_of_fmap in Ha as (h & -> & Hh).
    change (senderOf s <$> [tx0]) with [senderOf s tx0].
    rewrite Hacc. intros E%list_elem_of_singleton.
    destruct (Hheads h Hh) as [Hno _]. apply Hno. rewrite E. by left.
  - intros h [Hh | ->%list_elem_of_singleton]%elem_of_app.
    + destruct (Hheads h Hh) as [Hno Hlk].
      assert (senderOf s h ≠ k) by (intros E; apply Hno; rewrite E; by left).
      split; [by intros ?; apply Hno; right|].
      by rewrite lookup_insert_ne.
    + rewrite Hacc. split; [done|].
      rewrite lookup_insert_eq. simpl. by rewrite <- Hcurk.
Qed.

(** The constructor returns. *)
Lemma NewTransactionsByPriceAndNonce_total s order m :
  is_Some (NewTransactionsByPriceAndNonce s order m).
Proof.
  unfold NewTransactionsByPriceAndNonce.
  destruct (Init_total priceLess (foldl (collectHead s) (m, []) order).2) as [hs ->].
  simpl. eauto.
Qed.

(** The constructor establishes the invariant on a map keyed by sender. *)
Lemma NewTransactionsByPriceAndNonce_inv s order m t :
  NoDup order → keyedBySender s m →
  NewTransactionsByPriceAndNonce s order m = Some t → selectorInv s m t.
Proof.
  intros Hnd Hm. unfold NewTransactionsByPriceAndNonce. intros Hnew.
  apply bind_Some in Hnew as (hs & Hinit & [= <-]).
  apply Init_Some in Hinit.
  destruct (collectHead_foldl s m order (m, [])) as (Hk & Hn & Hh); simpl; try done.
  { constructor. }
  { intros h Hh. by apply elem_of_nil in Hh. }
  unfold selectorInv, remainingOf. simpl.
  split; [done|]. split; [done|]. split; [by rewrite Hinit|].
  intros h Hin. rewrite Hinit in Hin. exists []. simpl. by apply Hh.
Qed.

(** Removing the best head keeps the invariant and adds no sender. *)
Lemma heap_Pop_inv s m t x hs :
  selectorInv s m t → heap.Pop priceLess (heads t) = Some (x, hs) →
  selectorInv s m {| txs := txs t; heads := hs; signer := signer t |}
  ∧ heads t !! 0%nat = Some x
  ∧ (senderOf s x ∉ senderOf s <$> hs)
  ∧ ∀ a, a ∈ senderOf s <$> hs → a ∈ senderOf s <$> heads t.
Proof.
  intros (Hs & Hk & Hn & Hh) Hpop. apply Pop_Some in Hpop as [Hx Hp].
  rewrite Hp in Hn. simpl in Hn. apply NoDup_cons in Hn as [Hnx Hn].
  split; [|split; [done|split; [done|]]].
  - unfold selectorInv, remainingOf in *. simpl.
    split; [done|]. split; [done|]. split; [done|].
    intros h Hin. apply Hh. rewrite Hp. by right.
  - intros a Ha. rewrite Hp. simpl. by right.
Qed.

(** [Shift] and [Pop] keep the invariant and add no sender to the heads. *)
Lemma step_inv s m t t' :
  selectorInv s m t → step t t' →
  selectorInv s m t' ∧ ∀ a, a ∈ senderOf s <$> heads t' → a ∈ senderOf s <$> heads t.
Proof.
  intros Hinv Hstep.
  assert (signer t = s) as Hs by apply Hinv.
  destruct t as [tm th ts]. simpl in Hs. subst ts.
  destruct Hstep as [Hshift | Hpop].
  - unfold Shift in Hshift. simpl in Hshift.
    apply bind_Some in Hshift as (head & Hhead & Hshift).
    destruct (tm !! senderOf s head) as [[|tx0 rest]|] eqn:Hlook.
    1,3: apply bind_Some in Hshift as ([x hs] & Hpop & [= <-]);
         by destruct (heap_Pop_inv s m _ x hs Hinv Hpop) as (? & _ & _ & ?).
    apply bind_Some in Hshift as (hs & Hfix & [= <-]).
    apply Fix_Some in Hfix.
    destruct Hinv as (_ & Hk & Hn & Hh). simpl in *.
    destruct th as [|head' tl]; [done|].
    injection Hhead as ->. simpl in Hfix.
    destruct (keyedBySender_lookup s tm _ tx0 rest Hk Hlook) as [Hacc Hrest].
    assert (senderOf s <$> hs ≡ₚ senderOf s <$> head :: tl) as Hsenders.
    { rewrite Hfix. rewrite !fmap_cons. by rewrite Hacc. }
    split; [|by intros a; rewrite Hsenders].
    unfold selectorInv, remainingOf in *. simpl.
    split; [done|]. split; [by apply map_Forall_insert_2|].
    split; [by rewrite Hsenders|].
    intros h Hin. rewrite Hfix in Hin.
    rewrite fmap_cons in Hn. apply NoDup_cons in Hn as [Hnhead Hn].
    apply elem_of_cons in Hin as [-> | Hin].
    + rewrite Hacc, lookup_insert_eq. simpl.
      destruct (Hh head) as [emitted Hem]; [by left|].
      simpl in Hem. rewrite Hlook in Hem. simpl in Hem.
      exists (emitted ++ [head]). by rewrite <- app_assoc.
    + assert (senderOf s h ≠ senderOf s head) as Hne.
      { intros E. apply Hnhead. rewrite <- E. by apply list_elem_of_fmap_2. }
      rewrite lookup_insert_ne by done. apply Hh. by right.
  - unfold Pop in Hpop. simpl in Hpop.
    apply bind_Some in Hpop as ([x hs] & Hpop & [= <-]).
    by destruct (heap_Pop_inv s m _ x hs Hinv Hpop) as (? & _ & _ & ?).
Qed.

(** Every reachable selector satisfies the invariant. *)
Lemma reachable_inv s order m t :
  NoDup order → keyedBySender s m → reachable s order m t → selectorInv s m t.
Proof.
  intros Hnd Hm (t0 & Hnew & Hsteps).
  apply NewTransactionsByPriceAndNonce_inv in Hnew; [|done..].
  induction Hsteps as [|t1 t2 t3 Hstep _ IH]; [done|].
  apply IH. by eapply step_inv.
Qed.

(** Along calls of [Shift] and [Pop] the senders of the heads only shrink. *)
Lemma steps_senders s m t t' :
  selectorInv s m t → rtc step t t' →
  selectorInv s m t' ∧ ∀ a, a ∈ senderOf s <$> heads t' → a ∈ senderOf s <$> heads t.
Proof.
  intros Hinv Hsteps. induction Hsteps as [|t1 t2 t3 Hstep _ IH]; [done|].
  destruct (step_inv s m t1 t2 Hinv Hstep) as [Hinv2 Hsub].
  destruct (IH Hinv2) as [Hinv3 Hsub3]. split; [done|]. eauto.
Qed.

(** [Shift] returns on a selector whose heap is not empty. *)
Lemma Shift_total t : heads t ≠ [] → is_Some (Shift t).
Proof.
  intros Hne. unfold Shift.
  destruct (heads t) as [|head tl] eqn:Hheads; [done|]. simpl.
  destruct (txs t !! senderOf (signer t) head) as [[|tx0 rest]|].
  1,3: destruct (Pop_total priceLess (head :: tl)) as [[x hs] ->]; [done|];
       simpl; eauto.
  destruct (Fix_total priceLess (tx0 :: tl) 0) as [hs ->]; [simpl; lia|].
  simpl. eauto.
Qed.

(** [Pop] returns on a selector whose heap is not empty. *)
Lemma Pop_selector_total t : heads t ≠ [] → is_Some (Pop t).
Proof.
  intros Hne. unfold Pop.
  destruct (Pop_total priceLess (heads t) Hne) as [[x hs] ->]. simpl. eauto.
Qed.

Lemma nonce_le_transitive : Transitive (λ x y : Transaction, Nonce x ≤ Nonce y).
Proof. intros x y z. lia. Qed.

(** The constructor over a map keyed by sender: every head is the first
    transaction of its account's list. *)
Lemma NewTransactionsByPriceAndNonce_headsFollow s order m t :
  NoDup order → keyedBySender s m →
  NewTransactionsByPriceAndNonce s order m = Some t → headsFollow s m [] t.
Proof.
  intros Hnd Hm. unfold NewTransactionsByPriceAndNonce. intros Hnew.
  apply bind_Some in Hnew as (hs & Hinit & [= <-]).
  apply Init_Some in Hinit.
  destruct (collectHead_foldl s m order (m, [])) as (_ & _ & Hh); simpl; try done.
  { constructor. }
  { intros h Hh. by apply elem_of_nil in Hh. }
  intros h Hin. unfold remainingOf. simpl in *. rewrite Hinit in Hin.
  by apply Hh.
Qed.

(** A call appends the transaction [Peek] returned to what its account has
    emitted, and the next head of that account, when there is one, is the
    transaction that followed it. *)
Lemma step_headsFollow s m pre t x t1 :
  selectorInv s m t → headsFollow s m pre t →
  (Peek t).1 = Some x → step t t1 →
  headsFollow s m (pre ++ [x]) t1.
Proof.
  intros Hinv Hf Hpeek Hstep.
  assert (signer t = s) as Hs by apply Hinv.
  destruct t as [tm th ts]. simpl in Hs. subst ts.
  destruct Hinv as (_ & Hk & Hn & _). unfold headsFollow, remainingOf in *. simpl in *.
  destruct th as [|head tl]; [done|].
  unfold Peek in Hpeek. simpl in Hpeek. injection Hpeek as ->.
  rewrite fmap_cons in Hn. apply NoDup_cons in Hn as [Hnx Hn].
  assert (∀ h, h ∈ tl → senderOf s h ≠ senderOf s x) as Hother.
  { intros h Hin E. apply Hnx. rewrite <- E. by apply list_elem_of_fmap_2. }
  assert (∀ h, senderOf s h ≠ senderOf s x →
            filter (λ y, senderOf s y = senderOf s h) (pre ++ [x])
            = filter (λ y, senderOf s y = senderOf s h) pre) as Hfilter.
  { intros h Hne. rewrite filter_app, filter_cons_False by congruence.
    by rewrite filter_nil, app_nil_r. }
  assert (∀ hs, hs ≡ₚ tl →
            ∀ h, h ∈ hs →
              m !! senderOf s h
              = Some (filter (λ y, senderOf s y = senderOf s h) (pre ++ [x])
                      ++ h :: default [] (tm !! senderOf s h))) as Hdrop.
  { intros hs Hperm h Hin. rewrite Hperm in Hin.
    rewrite Hfilter by by apply Hother. apply Hf. by right. }
  assert (∀ x' hs, heap.Pop priceLess (x :: tl) = Some (x', hs) → hs ≡ₚ tl) as Hpopped.
  { intros x' hs Hp. apply Pop_Some in Hp as [Hx' Hperm].
    simpl in Hx'. injection Hx' as <-. by apply (inj (cons x)). }
  destruct Hstep as [Hshift | Hpop].
  - unfold Shift in Hshift. simpl in Hshift.
    destruct (tm !! senderOf s x) as [[|tx0 rest]|] eqn:Hlook.
    1,3: apply bind_Some in Hshift as ([x' hs] & Hp & [= <-]); simpl;
         apply Hdrop; by eapply Hpopped.
    apply bind_Some in Hshift as (hs & Hfix & [= <-]).
    apply Fix_Some in Hfix. simpl in *.
    destruct (keyedBySender_lookup s tm _ tx0 rest Hk Hlook) as [Hacc _].
    intros h Hin. rewrite Hfix in Hin.
    apply elem_of_cons in Hin as [-> | Hin].
    + rewrite Hacc, lookup_insert_eq. simpl.
      rewrite filter_app, filter_cons_True by done. rewrite filter_nil.
      specialize (Hf x (ltac:(by left))). rewrite Hlook in Hf. simpl in Hf.
      by rewrite <- app_assoc.
    + rewrite lookup_insert_ne by (intros E; by apply (Hother h Hin)).
      rewrite Hfilter by by apply Hother. apply Hf. by right.
  - unfold Pop in Hpop. simpl in Hpop.
    apply bind_Some in Hpop as ([x' hs] & Hp & [= <-]). simpl.
    apply Hdrop; by eapply Hpopped.
Qed.

(** Along a call sequence the invariant holds and the heads follow what the
    sequence emitted. *)
Lemma emits_headsFollow s m pre t log t' :
  selectorInv s m t → headsFollow s m pre t → emits t log t' →
  selectorInv s m t' ∧ headsFollow s m (pre ++ log) t'.
Proof.
  intros Hinv Hf Hem. revert pre Hinv Hf.
  induction Hem as [t|t x t1 log t2 Hpeek Hstep _ IH]; intros pre Hinv Hf.
  { by rewrite app_nil_r. }
  destruct (step_inv s m t t1 Hinv Hstep) as [Hinv1 _].
  pose proof (step_headsFollow s m pre t x t1 Hinv Hf Hpeek Hstep) as Hf1.
  destruct (IH (pre ++ [x]) Hinv1 Hf1) as [Hinv2 Hf2].
  split; [done|]. by rewrite <- app_assoc in Hf2.
Qed.

(** A call sequence is a sequence of calls that returned, and every such
    sequence emits some log: a call returns on a non-empty heap only, where
    [Peek] returns a transaction. *)
Lemma emits_steps t t' : rtc step t t' ↔ ∃ log, emits t log t'.
Proof.
  split.
  - induction 1 as [t|t t1 t2 Hstep _ [log IH]]; [exists []; constructor|].
    destruct (Peek t).1 as [x|] eqn:Hpeek.
    { exists (x :: log). by econstructor. }
    exfalso. unfold Peek in Hpeek. destruct (heads t) eqn:Hh; [|done].
    destruct Hstep as [Hs | Hp].
    + unfold Shift in Hs. by rewrite Hh in Hs.
    + unfold Pop, heap.Pop in Hp. by rewrite Hh in Hp.
  - intros [log Hem].
    induction Hem as [t|t x t1 log t2 _ Hstep _ IH]; [apply rtc_refl|].
    by eapply rtc_l.
Qed.

(** On a selector built from a nonce-sorted map keyed by sender, after any
    call sequence: no two heads have the same sender, and each head stands
    in its account's original list right after the transactions of that
    account the sequence emitted, in the order it emitted them, and right
    before the transactions the selector still holds for the account.  So
    nothing of the account was skipped, everything emitted for it has a
    nonce at most the head's and everything still held has a nonce at least
    the head's: the head is the account's lowest-nonce transaction not yet
    emitted. *)
Theorem heads_next_unemitted s order m t0 log t :
  NoDup order → keyedBySender s m → nonceSorted m →
  NewTransactionsByPriceAndNonce s order m = Some t0 → emits t0 log t →
  NoDup (senderOf s <$> heads t)
  ∧ ∀ h, h ∈ heads t →
      m !! senderOf s h
      = Some (filter (λ x, senderOf s x = senderOf s h) log
              ++ h :: remainingOf t (senderOf s h))
      ∧ Forall (λ tx, Nonce tx ≤ Nonce h)
          (filter (λ x, senderOf s x = senderOf s h) log)
      ∧ Forall (λ tx, Nonce h ≤ Nonce tx) (remainingOf t (senderOf s h)).
Proof.
  intros Hnd Hm Hsorted Hnew Hem.
  pose proof (NewTransactionsByPriceAndNonce_inv s order m t0 Hnd Hm Hnew) as Hinv0.
  pose proof (NewTransactionsByPriceAndNonce_headsFollow s order m t0 Hnd Hm Hnew) as Hf0.
  destruct (emits_headsFollow s m [] t0 log t Hinv0 Hf0 Hem) as [Hinv Hf].
  simpl in Hf. split; [apply Hinv|]. intros h Hin.
  specialize (Hf h Hin). split; [done|].
  specialize (Hsorted _ _ Hf). simpl in Hsorted.
  apply (@Sorted_StronglySorted _ _ nonce_le_transitive) in Hsorted.
  split.
  - apply Forall_forall. intros tx Htx.
    apply list_elem_of_split in Htx as (l1 & l2 & Hsplit).
    rewrite Hsplit, <- app_assoc in Hsorted. simpl in Hsorted.
    apply StronglySorted_app_1_r in Hsorted.
    apply StronglySorted_cons in Hsorted as [Hall _].
    rewrite Forall_forall in Hall. apply Hall.
    apply elem_of_app. right. by left.
  - apply StronglySorted_app_1_r in Hsorted.
    by apply StronglySorted_cons in Hsorted as [? _].
Qed.

(** A call on a head of another account leaves the list of [a] alone. *)
Lemma step_remaining_other t x t1 (a : N) :
  (Peek t).1 = Some x → senderOf (signer t) x ≠ a → step t t1 →
  remainingOf t1 a = remainingOf t a.
Proof.
  unfold remainingOf, Peek. intros Hpeek Hne [Hshift | Hpop].
  - unfold Shift in Hshift. destruct (heads t) as [|head tl]; [done|].
    simpl in *. injection Hpeek as ->.
    destruct (txs t !! senderOf (signer t) x) as [[|tx0 rest]|] eqn:Hlook.
    1,3: by apply bind_Some in Hshift as ([x' hs] & _ & [= <-]).
    apply bind_Some in Hshift as (hs & _ & [= <-]). simpl.
    by rewrite lookup_insert_ne.
  - unfold Pop in Hpop. by apply bind_Some in Hpop as ([x' hs] & _ & [= <-]).
Qed.

(** On a selector reached from the constructor over a map keyed by sender:
    when [Pop] is called while [x] is the transaction [Peek] returns, no
    call sequence that follows emits a transaction of the sender of [x], no
    [Peek] after it returns one, and the list the selector held for that
    sender at the [Pop] is never touched again: the account is abandoned
    with its remaining queue. *)
Theorem Pop_abandons_account s order m t x t1 log t2 :
  NoDup order → keyedBySender s m → reachable s order m t →
  (Peek t).1 = Some x → Pop t = Some t1 → emits t1 log t2 →
  Forall (λ y, senderOf s y ≠ senderOf s x) log
  ∧ (∀ y, (Peek t2).1 = Some y → senderOf s y ≠ senderOf s x)
  ∧ remainingOf t2 (senderOf s x) = remainingOf t (senderOf s x).
Proof.
  intros Hnd Hm Hreach Hpeek Hpop Hem.
  pose proof (reachable_inv s order m t Hnd Hm Hreach) as Hinv.
  unfold Pop in Hpop. apply bind_Some in Hpop as ([x' hs] & Hpop & [= <-]).
  destruct (heap_Pop_inv s m t x' hs Hinv Hpop) as (Hinv1 & Hx' & Hnot & _).
  assert (x' = x) as ->.
  { unfold Peek in Hpeek. destruct (heads t); simpl in *; congruence. }
  assert (∀ u y, (Peek u).1 = Some y → senderOf s y ∈ senderOf s <$> heads u) as Hhead.
  { intros u y Hy. apply list_elem_of_fmap_2. unfold Peek in Hy.
    destruct (heads u) as [|y' tl]; simpl in Hy; [done|]. injection Hy as ->. by left. }
  set (t1 := {| txs := txs t; heads := hs; signer := signer t |}) in *.
  change (remainingOf t (senderOf s x)) with (remainingOf t1 (senderOf s x)).
  assert (senderOf s x ∉ senderOf s <$> heads t1) as Hnot1 by done.
  clearbody t1. clear Hpop Hx' Hnot Hinv Hreach Hpeek.
  induction Hem as [u|u y u1 log u2 Hy Hstep _ IH].
  { split; [constructor|]. split; [|done]. intros y Hy E. apply Hnot1.
    rewrite <- E. by apply Hhead. }
  assert (senderOf s y ≠ senderOf s x) as Hne.
  { intros E. apply Hnot1. rewrite <- E. by apply Hhead. }
  destruct (step_inv s m u u1 Hinv1 Hstep) as [Hinv2 Hsub].
  destruct IH as (Hlog & Hpk & Hrem); [done| by intros Hin; apply Hnot1, Hsub |].
  split; [by constructor|]. split; [done|].
  rewrite Hrem. apply (step_remaining_other u y); [done| |done].
  by rewrite (proj1 Hinv1).
Qed.

(** C10.  [Peek] returns nil exactly on the empty heap, returns the element
    at index 0 otherwise, and leaves the selector as it is; [Shift] panics
    exactly on the empty heap, so on a heap that is not empty it returns. *)
Theorem C10_peek_pure_shift_needs_head t :
  ((Peek t).1 = None ↔ heads t = [])
  ∧ (Peek t).1 = heads t !! 0%nat
  ∧ (Peek t).2 = t
  ∧ (Shift t = None ↔ heads t = []).
Proof.
  split; [|split; [|split]].
  - unfold Peek. by destruct (heads t).
  - unfold Peek. by destruct (heads t).
  - unfold Peek. by destruct (heads t).
  - split.
    + intros Hnone. destruct (decide (heads t = [])) as [|Hne]; [done|].
      apply Shift_total in Hne as [t' Ht']. congruence.
    + intros Hnil. unfold Shift. by rewrite Hnil.
Qed.

End Selector.

Section SelectorInstances.
Import common types.
Local Existing Instance sample.standard.

(** Deciding a closed proposition by evaluation. *)
Ltac decide_by_eval := apply (bool_decide_unpack _); vm_compute; exact I.

Lemma pending_keyed :
  keyedBySender (C := sample.standard) tt sample.pending.
Proof. unfold keyedBySender. decide_by_eval. Defined.

Lemma pending_sorted : nonceSorted sample.pending.
Proof. unfold nonceSorted. decide_by_eval. Defined.

Lemma order_56_NoDup : NoDup [5%N; 6%N].
Proof. decide_by_eval. Defined.

Lemma queued_keyed :
  keyedBySender (C := sample.standard) tt sample.queued.
Proof. unfold keyedBySender. decide_by_eval. Defined.

(** The sample selector after two calls of [Shift]: the first emitted the
    only transaction of account 6, the second the transaction of nonce 0 of
    account 5; the head that remains is the transaction of nonce 1 of
    account 5, right after the one emitted for that account. *)
Lemma heads_next_unemitted_witness :
  NoDup [5%N; 6%N]
  ∧ keyedBySender (C := sample.standard) tt sample.pending
  ∧ nonceSorted sample.pending
  ∧ ∃ t0 t1 t,
      NewTransactionsByPriceAndNonce (C := sample.standard)
        tt [5%N; 6%N] sample.pending = Some t0
      ∧ (Peek t0).1 = Some (sample.signedTx 0 4 27 6 1)
      ∧ Shift t0 = Some t1
      ∧ (Peek t1).1 = Some (sample.signedTx 0 3 27 5 1)
      ∧ Shift t1 = Some t
      ∧ heads t = [sample.signedTx 1 9 27 5 1]
      ∧ (NoDup (senderOf tt <$> heads t)
         ∧ ∀ h, h ∈ heads t →
             sample.pending !! senderOf tt h
             = Some (filter (λ x, senderOf tt x = senderOf tt h)
                       [sample.signedTx 0 4 27 6 1; sample.signedTx 0 3 27 5 1]
                     ++ h :: remainingOf t (senderOf tt h))
             ∧ Forall (λ tx, Nonce tx ≤ Nonce h)
                 (filter (λ x, senderOf tt x = senderOf tt h)
                    [sample.signedTx 0 4 27 6 1; sample.signedTx 0 3 27 5 1])
             ∧ Forall (λ tx, Nonce h ≤ Nonce tx) (remainingOf t (senderOf tt h))).
Proof.
  split; [exact order_56_NoDup|]. split; [exact pending_keyed|].
  split; [exact pending_sorted|].
  eexists. eexists. eexists.
  split; [vm_compute; reflexivity|]. split; [vm_compute; reflexivity|].
  split; [vm_compute; reflexivity|]. split; [vm_compute; reflexivity|].
  split; [vm_compute; reflexivity|]. split; [vm_compute; reflexivity|].
  eapply (heads_next_unemitted
            (C := sample.standard) tt [5%N; 6%N] sample.pending);
    [exact order_56_NoDup | exact pending_keyed | exact pending_sorted
     | vm_compute; reflexivity |].
  eapply emits_call; [vm_compute; reflexivity | left; vm_compute; reflexivity |].
  eapply emits_call; [vm_compute; reflexivity | left; vm_compute; reflexivity |].
  apply emits_nil.
Defined.

(** On the selector of [sample.queued] account 5 has the best head and a
    second transaction waiting.  After [Pop] a [Shift] emits the head of
    account 6 and the next [Peek] returns the second transaction of account
    6: nothing of account 5 comes back, and its waiting transaction stays
    in the list, unused. *)
Lemma Pop_abandons_account_witness :
  ∃ t t1 t2,
    NewTransactionsByPriceAndNonce (C := sample.standard)
      tt [5%N; 6%N] sample.queued = Some t
    ∧ (Peek t).1 = Some (sample.signedTx 0 9 27 5 1)
    ∧ remainingOf t 5%N = [sample.signedTx 1 8 27 5 1]
    ∧ Pop t = Some t1
    ∧ (Peek t1).1 = Some (sample.signedTx 0 4 27 6 1)
    ∧ Shift t1 = Some t2
    ∧ (Peek t2).1 = Some (sample.signedTx 1 3 27 6 1)
    ∧ (Forall (λ y, senderOf (C := sample.standard) tt y
                    ≠ senderOf (C := sample.standard) tt (sample.signedTx 0 9 27 5 1))
         [sample.signedTx 0 4 27 6 1]
       ∧ (∀ y, (Peek t2).1 = Some y →
               senderOf (C := sample.standard) tt y
               ≠ senderOf (C := sample.standard) tt (sample.signedTx 0 9 27 5 1))
       ∧ remainingOf t2 (senderOf (C := sample.standard) tt (sample.signedTx 0 9 27 5 1))
         = remainingOf t (senderOf (C := sample.standard) tt (sample.signedTx 0 9 27 5 1))).
Proof.
  do 3 eexists.
  split; [vm_compute; reflexivity|]. split; [vm_compute; reflexivity|].
  split; [vm_compute; reflexivity|]. split; [vm_compute; reflexivity|].
  split; [vm_compute; reflexivity|]. split; [vm_compute; reflexivity|].
  split; [vm_compute; reflexivity|].
  eapply (Pop_abandons_account
            (C := sample.standard) tt [5%N; 6%N] sample.queued);
    [exact order_56_NoDup | exact queued_keyed | | | | ].
  - eexists. split; [vm_compute; reflexivity | apply rtc_refl].
  - vm_compute; reflexivity.
  - vm_compute; reflexivity.
  - eapply emits_call; [vm_compute; reflexivity | left; vm_compute; reflexivity |].
    apply emits_nil.
Defined.

(** The lists of the exchanged sample are nonce-sorted and each holds the
    transactions of one sender; only the keys are not those senders. *)
Lemma exchanged_lists_per_account :
  nonceSorted sample.exchanged
  ∧ map_Forall (λ (_ : N) (l : list Transaction),
                  Forall (λ tx, senderOf tt tx = senderOf tt (default sample.depositTx (head l))) l)
      sample.exchanged
  ∧ ¬ keyedBySender tt sample.exchanged.
Proof.
  split; [unfold nonceSorted; decide_by_eval|].
  split; [decide_by_eval|]. unfold keyedBySender. decide_by_eval.
Qed.

(** C2.  The claim fails on the code at a map whose lists are per account
    and nonce-sorted but filed under exchanged keys.  The constructor files
    the tail of the first list it visits under the recovered sender, which
    overwrites the list of that sender before the loop reaches it; the loop
    then takes the overwritten entry's first transaction as a second head
    of the same sender, whichever key it visits first: the heap holds two
    transactions of one sender. *)
Lemma C2_exchanged_keys_two_heads_one_sender :
  (∃ t h1 h2,
     NewTransactionsByPriceAndNonce tt [5%N; 6%N] sample.exchanged = Some t
     ∧ heads t = [h1; h2] ∧ h1 ≠ h2
     ∧ senderOf tt h1 = senderOf tt h2
     ∧ ¬ NoDup (senderOf tt <$> heads t))
  ∧ (∃ t h1 h2,
       NewTransactionsByPriceAndNonce tt [6%N; 5%N] sample.exchanged = Some t
       ∧ heads t = [h1; h2] ∧ h1 ≠ h2
       ∧ senderOf tt h1 = senderOf tt h2
       ∧ ¬ NoDup (senderOf tt <$> heads t)).
Proof.
  split; do 3 eexists;
    (split; [vm_compute; reflexivity|]); (split; [reflexivity|]);
    (split; [intros [=]|]); (split; [vm_compute; reflexivity|]);
    decide_by_eval.
Qed.

(** C6.  The claim fails on the code at the same map: the selector the
    constructor builds has two heads of one sender, [Pop] removes the first
    and the next [Peek] returns the second, a transaction of the account
    [Pop] was to abandon. *)
Lemma C6_exchanged_keys_pop_then_same_sender :
  (∃ t x t1 y,
     NewTransactionsByPriceAndNonce tt [5%N; 6%N] sample.exchanged = Some t
     ∧ (Peek t).1 = Some x ∧ Pop t = Some t1 ∧ (Peek t1).1 = Some y
     ∧ senderOf tt y = senderOf tt x)
  ∧ (∃ t x t1 y,
       NewTransactionsByPriceAndNonce tt [6%N; 5%N] sample.exchanged = Some t
       ∧ (Peek t).1 = Some x ∧ Pop t = Some t1 ∧ (Peek t1).1 = Some y
       ∧ senderOf tt y = senderOf tt x).
Proof.
  split; do 4 eexists; repeat (split; [vm_compute; reflexivity|]);
    vm_compute; reflexivity.
Qed.

End SelectorInstances.

(** *** The heap order *)

Section HeapOrder.
Context {A : Type} (less : A → A → bool).
Implicit Types (h : list A) (i j k n p c : nat).

(** [Less] is a strict weak order: asymmetric, and its negation is
    transitive. *)
Hypothesis less_asym : ∀ x y, less x y = true → less y x = false.
Hypothesis less_ntrans : ∀ x y z, less x y = false → less y z = false → less x z = false.

Lemma Less_Some h i j b :
  heap.Less less h i j = Some b ↔
  ∃ x y, h !! i = Some x ∧ h !! j = Some y ∧ b = less x y.
Proof.
  unfold heap.Less. split.
  - intros Hl. apply bind_Some in Hl as (x & Hx & Hl).
    apply bind_Some in Hl as (y & Hy & [= <-]). eauto.
  - intros (x & y & -> & -> & ->). done.
Qed.

Lemma Swap_lookup h i j h' :
  heap.Swap h i j = Some h' →
  h' !! i = h !! j ∧ h' !! j = h !! i ∧ (∀ k, k ≠ i → k ≠ j → h' !! k = h !! k).
Proof.
  intros Hs. destruct (Swap_Some h i j h' Hs) as (_ & _ & Hj & Hk).
  split; [|done]. unfold heap.Swap in Hs.
  apply bind_Some in Hs as (x & Hx & Hs). apply bind_Some in Hs as (y & Hy & [= <-]).
  destruct (decide (i = j)) as [->|Hne].
  - rewrite list_lookup_insert_eq; [congruence|].
    rewrite length_insert. by eapply lookup_lt_Some.
  - rewrite list_lookup_insert_ne by done.
    rewrite list_lookup_insert_eq; [congruence|]. by eapply lookup_lt_Some.
Qed.

(** Sifting down at [i] repairs a slice that is a heap from [k] on except
    at [i], provided the children of [i] already respect the parent of
    [i]. *)
Lemma down_loop_ordered fuel h i n k h' i' :
  (k ≤ i)%nat →
  (∀ p c x y, (k ≤ p)%nat → p ≠ i → heap.child p c → (c < n)%nat →
     h !! p = Some x → h !! c = Some y → less y x = false) →
  (∀ q c x y, (k ≤ q)%nat → heap.child q i → heap.child i c → (c < n)%nat →
     h !! q = Some x → h !! c = Some y → less y x = false) →
  heap.down_loop less fuel h i n = Some (h', i') →
  heap.orderedFrom less k h' n.
Proof.
  revert h i. induction fuel as [|fuel IH]; intros h i Hki HA HB;
    cbn [heap.down_loop]; [done|].
  case_decide as Hn.
  { intros [= <- <-] p c x y Hkp Hch Hcn Hp Hc.
    destruct (decide (p = i)) as [->|Hpi]; [|by eapply HA].
    unfold heap.child in Hch. lia. }
  intros Hd. apply bind_Some in Hd as (r & Hr & Hd).
  apply bind_Some in Hd as (cf & Hcf & Hd).
  apply Less_Some in Hcf as (xj & xi & Hxj & Hxi & ->).
  (* what the choice of the child says about the two children *)
  assert (∀ c y, heap.child i c → (c < n)%nat → h !! c = Some y → less y xj = false)
    as Hbest.
  { intros c y Hch Hcn Hy. destruct r.
    - case_decide as H2; [|done].
      apply Less_Some in Hr as (x2 & x1 & Hx2 & Hx1 & Hlt).
      assert (x2 = xj) as -> by congruence.
      unfold heap.child in Hch. destruct Hch as [-> | ->].
      + assert (y = x1) as -> by congruence. by apply less_asym.
      + replace (2 * i + 2)%nat with (2 * i + 1 + 1)%nat in Hy by lia.
        assert (y = xj) as -> by congruence.
        destruct (less xj xj) eqn:E; [|done]. by rewrite (less_asym _ _ E) in E.
    - unfold heap.child in Hch. destruct Hch as [-> | ->].
      + assert (y = xj) as -> by congruence.
        destruct (less xj xj) eqn:E; [|done]. by rewrite (less_asym _ _ E) in E.
      + case_decide as H2; [|lia].
        apply Less_Some in Hr as (x2 & x1 & Hx2 & Hx1 & Hlt).
        replace (2 * i + 2)%nat with (2 * i + 1 + 1)%nat in Hy by lia.
        assert (y = x2) as -> by congruence.
        assert (x1 = xj) as -> by congruence. done. }
  set (j := if r then (2 * i + 1 + 1)%nat else (2 * i + 1)%nat) in *.
  assert (heap.child i j ∧ j < n)%nat as [Hchj Hjn].
  { subst j. unfold heap.child. destruct r; [|lia].
    case_decide; [lia|done]. }
  destruct (less xj xi) eqn:Hlt; simpl in Hd.
  - (* the child moves up and the loop goes on at [j] *)
    apply bind_Some in Hd as (h1 & Hs & Hd).
    apply Swap_lookup in Hs as (H1i & H1j & H1k).
    assert (i < j)%nat as Hij by (unfold heap.child in Hchj; lia).
    eapply (IH h1 j); [lia | | | exact Hd].
    + intros p c x y Hkp Hpj Hch Hcn Hp Hc.
      destruct (decide (p = i)) as [->|Hpi].
      * rewrite H1i, Hxj in Hp. injection Hp as <-.
        destruct (decide (c = j)) as [->|Hcj].
        -- rewrite H1j, Hxi in Hc. injection Hc as <-. by apply less_asym.
        -- rewrite H1k in Hc; [by eapply Hbest | unfold heap.child in Hch; lia | done].
      * rewrite H1k in Hp by done.
        destruct (decide (c = i)) as [->|Hci].
        -- rewrite H1i, Hxj in Hc. injection Hc as <-.
           by eapply (HB p j).
        -- rewrite H1k in Hc; [by eapply (HA p c) | done |].
           unfold heap.child in *. lia.
    + intros q c x y Hkq Hqj Hch Hcn Hq Hc.
      assert (q = i) as -> by (unfold heap.child in *; lia).
      rewrite H1i, Hxj in Hq. injection Hq as <-.
      rewrite H1k in Hc by (unfold heap.child in *; lia).
      eapply (HA j c); try done; lia.
  - (* the element stays *)
    injection Hd as <- <-.
    intros p c x y Hkp Hch Hcn Hp Hc.
    destruct (decide (p = i)) as [->|Hpi]; [|by eapply HA].
    assert (x = xi) as -> by congruence.
    eapply less_ntrans; [by eapply Hbest | done].
Qed.

Lemma down_ordered h i n k h' moved :
  (k ≤ i)%nat →
  (∀ p c x y, (k ≤ p)%nat → p ≠ i → heap.child p c → (c < n)%nat →
     h !! p = Some x → h !! c = Some y → less y x = false) →
  (∀ q c x y, (k ≤ q)%nat → heap.child q i → heap.child i c → (c < n)%nat →
     h !! q = Some x → h !! c = Some y → less y x = false) →
  heap.down less h i n = Some (h', moved) →
  heap.orderedFrom less k h' n.
Proof.
  intros Hki HA HB Hd. unfold heap.down in Hd.
  apply bind_Some in Hd as ([h1 i1] & Hd & [= <- _]).
  by eapply down_loop_ordered.
Qed.

Lemma Init_loop_ordered k h n h' :
  heap.orderedFrom less k h n →
  heap.Init_loop less k h n = Some h' → heap.orderedFrom less 0 h' n.
Proof.
  revert h. induction k as [|k IH]; intros h Hord; simpl; [by intros [= <-]|].
  intros Hi. apply bind_Some in Hi as ([h1 m] & Hd & Hi).
  eapply IH; [|exact Hi].
  eapply (down_ordered h k n k); [done | | | exact Hd].
  - intros p c x y Hkp Hpk. apply Hord. lia.
  - intros q c x y Hkq Hch. unfold heap.child in Hch. lia.
Qed.

(** [heap.Init] establishes the heap order. *)
Lemma Init_ordered h h' : heap.Init less h = Some h' → heap.ordered less h'.
Proof.
  unfold heap.Init. intros Hi.
  pose proof (Init_loop_Some less _ _ _ _ Hi) as [_ Hlen].
  unfold heap.ordered. rewrite Hlen.
  eapply Init_loop_ordered; [|exact Hi].
  intros p c x y Hkp Hch Hcn. unfold heap.child in Hch.
  pose proof (Nat.div_mod_eq (length h) 2).
  pose proof (Nat.mod_upper_bound (length h) 2). lia.
Qed.

(** [heap.Fix] at the root repairs a heap whose root was replaced. *)
Lemma Fix_root_ordered h x h' :
  heap.ordered less h →
  heap.Fix less (<[0%nat := x]> h) 0 = Some h' → heap.ordered less h'.
Proof.
  intros Hord. unfold heap.Fix. intros Hf.
  apply bind_Some in Hf as ([h1 m] & Hd & Hf).
  assert (heap.ordered less h1) as H1.
  { pose proof (down_Some less _ _ _ _ _ Hd) as (_ & Hlen & _).
    unfold heap.ordered. rewrite Hlen.
    eapply (down_ordered _ 0 _ 0); [done | | | exact Hd].
    - intros p c y z _ Hp Hch Hcn Hy Hz.
      rewrite list_lookup_insert_ne in Hy by done.
      rewrite list_lookup_insert_ne in Hz by (unfold heap.child in Hch; lia).
      rewrite length_insert in Hcn. eapply (Hord p c); try done; lia.
    - intros q c y z _ Hch. unfold heap.child in Hch. lia. }
  destruct m; simpl in Hf; [by injection Hf as <-|].
  unfold heap.up in Hf. simpl in Hf. by injection Hf as <-.
Qed.

(** [heap.Pop] leaves a heap. *)
Lemma Pop_ordered h x h' :
  heap.ordered less h → heap.Pop less h = Some (x, h') → heap.ordered less h'.
Proof.
  intros Hord. unfold heap.Pop. destruct (length h) as [|n] eqn:Hlen; [done|].
  intros Hp. apply bind_Some in Hp as (h1 & Hs & Hp).
  apply bind_Some in Hp as ([h2 m] & Hd & Hp).
  pose proof (Swap_Some h 0 n h1 Hs) as (_ & Hl1 & _).
  apply Swap_lookup in Hs as (_ & _ & H1k).
  pose proof (down_Some less _ _ _ _ _ Hd) as (_ & Hl2 & _).
  assert (heap.orderedFrom less 0 h2 n) as H2.
  { eapply (down_ordered h1 0 n 0); [done | | | exact Hd].
    - intros p c y z _ Hp0 Hch Hcn Hy Hz.
      rewrite H1k in Hy by (unfold heap.child in Hch; lia).
      rewrite H1k in Hz by (unfold heap.child in Hch; lia).
      eapply (Hord p c); try done; lia.
    - intros q c y z _ Hch. unfold heap.child in Hch. lia. }
  unfold heap.PopBack in Hp. rewrite Hl2, Hl1, Hlen in Hp.
  apply bind_Some in Hp as (y & Hy & [= <- <-]).
  unfold heap.ordered. rewrite length_take, Hl2, Hl1, Hlen, Nat.min_l by lia.
  intros p c y' z _ Hch Hcn Hy' Hz.
  rewrite lookup_take_lt in Hy' by (unfold heap.child in Hch; lia).
  rewrite lookup_take_lt in Hz by done.
  eapply (H2 p c); try done; lia.
Qed.

(** In a heap nothing is before the root. *)
Lemma ordered_root h x :
  heap.ordered less h → h !! 0%nat = Some x →
  ∀ y, y ∈ h → less y x = false.
Proof.
  intros Hord Hx y Hy. apply list_elem_of_lookup in Hy as [i Hi].
  revert y Hi. induction (lt_wf i) as [i _ IH]. intros y Hi.
  destruct i as [|i].
  - assert (y = x) as -> by congruence.
    destruct (less x x) eqn:E; [|done]. by rewrite (less_asym _ _ E) in E.
  - set (p := (i / 2)%nat).
    assert (heap.child p (S i)) as Hch.
    { unfold heap.child, p. pose proof (Nat.div_mod_eq i 2).
      pose proof (Nat.mod_upper_bound i 2). lia. }
    assert (p < S i)%nat as Hp by (unfold heap.child in Hch; lia).
    destruct (lookup_lt_is_Some_2 h p) as [z Hz].
    { apply lookup_lt_Some in Hi. lia. }
    eapply less_ntrans; [|by eapply (IH p)].
    eapply (Hord p (S i)); try done; [lia|]. by eapply lookup_lt_Some.
Qed.

End HeapOrder.

(** *** The selector: price order, size and the heads of the constructor *)

Section SelectorOrder.
Import common types.
Context {C : Collaborators}.
Implicit Types (s : Signer) (m : gmap N (list Transaction)) (t : TransactionsByPriceAndNonce).

Lemma priceLess_asym (x y : Transaction) : priceLess x y = true → priceLess y x = false.
Proof. unfold priceLess. lia. Qed.

Lemma priceLess_ntrans (x y z : Transaction) :
  priceLess x y = false → priceLess y z = false → priceLess x z = false.
Proof. unfold priceLess. lia. Qed.

(** The heads of a reachable selector form a heap, whatever the map. *)
Lemma reachable_ordered s order m t :
  reachable s order m t → heap.ordered priceLess (heads t).
Proof.
  intros (t0 & Hnew & Hsteps).
  assert (heap.ordered priceLess (heads t0)) as H0.
  { unfold NewTransactionsByPriceAndNonce in Hnew.
    apply bind_Some in Hnew as (hs & Hinit & [= <-]). simpl.
    eapply Init_ordered; [apply priceLess_asym | apply priceLess_ntrans | exact Hinit]. }
  clear Hnew. induction Hsteps as [|t1 t2 t3 Hstep _ IH]; [done|].
  apply IH. clear IH. destruct Hstep as [Hshift | Hpop].
  - unfold Shift in Hshift.
    apply bind_Some in Hshift as (head & Hhead & Hshift).
    destruct (txs t1 !! senderOf (signer t1) head) as [[|tx0 rest]|].
    1,3: apply bind_Some in Hshift as ([x hs] & Hp & [= <-]); simpl;
         eapply Pop_ordered;
           [apply priceLess_asym | apply priceLess_ntrans | exact H0 | exact Hp].
    apply bind_Some in Hshift as (hs & Hfix & [= <-]). simpl.
    eapply Fix_root_ordered;
      [apply priceLess_asym | apply priceLess_ntrans | exact H0 | exact Hfix].
  - unfold Pop in Hpop.
    apply bind_Some in Hpop as ([x hs] & Hp & [= <-]). simpl.
    eapply Pop_ordered;
      [apply priceLess_asym | apply priceLess_ntrans | exact H0 | exact Hp].
Qed.

(** On a reachable selector no head has a higher gas price than the one at
    index 0. *)
Lemma reachable_root_highest s order m t x :
  reachable s order m t → heads t !! 0%nat = Some x →
  ∀ h, h ∈ heads t → GasPrice h ≤ GasPrice x.
Proof.
  intros Hreach Hx h Hin.
  pose proof (reachable_ordered s order m t Hreach) as Hord.
  pose proof (ordered_root priceLess priceLess_asym priceLess_ntrans
                (heads t) x Hord Hx h Hin) as Hle.
  unfold priceLess in Hle. unfold GasPrice. lia.
Qed.

(** [Peek] returns a head of highest gas price: on every selector reached
    from the constructor, over any map and in any visiting order of its
    keys, no head has a higher price than the transaction [Peek] returns. *)
Theorem Peek_highest_price s order m t x :
  reachable s order m t → (Peek t).1 = Some x →
  ∀ h, h ∈ heads t → GasPrice h ≤ GasPrice x.
Proof.
  intros Hreach Hpeek. apply (reachable_root_highest s order m t x Hreach).
  unfold Peek in Hpeek. by destruct (heads t).
Qed.

(** After [Pop] the next [Peek] returns a transaction whose gas price is at
    most the price of the one removed. *)
Theorem Pop_then_Peek_not_higher s order m t x t1 y :
  reachable s order m t → (Peek t).1 = Some x → Pop t = Some t1 →
  (Peek t1).1 = Some y → GasPrice y ≤ GasPrice x.
Proof.
  intros Hreach Hpeek Hpop Hpeek1.
  unfold Pop in Hpop. apply bind_Some in Hpop as ([x' hs] & Hp & [= <-]).
  apply Pop_Some in Hp as [Hx Hperm].
  assert (x' = x) as ->.
  { unfold Peek in Hpeek. destruct (heads t); simpl in *; congruence. }
  apply (reachable_root_highest s order m t x Hreach Hx).
  rewrite Hperm. right.
  unfold Peek in Hpeek1. simpl in Hpeek1. destruct hs as [|y' tl]; [done|].
  injection Hpeek1 as ->. by left.
Qed.

(** [Pop] panics exactly on the empty heap. *)
Theorem Pop_panics_iff_empty t : Pop t = None ↔ heads t = [].
Proof.
  split.
  - intros Hnone. destruct (decide (heads t = [])) as [|Hne]; [done|].
    apply Pop_selector_total in Hne as [t' Ht']. congruence.
  - intros Hnil. unfold Pop. by rewrite Hnil.
Qed.

Lemma sum_lengths_comm (j1 j2 : N) (z1 z2 : list Transaction) (y : nat) :
  (length z1 + (length z2 + y) = length z2 + (length z1 + y))%nat.
Proof. lia. Qed.

Lemma sum_lengths_insert m (a : N) (tx0 : Transaction) (rest : list Transaction) :
  m !! a = Some (tx0 :: rest) →
  S (map_fold (λ (_ : N) (l : list Transaction) (acc : nat), length l + acc)%nat 0%nat
              (<[a := rest]> m))
  = map_fold (λ (_ : N) (l : list Transaction) (acc : nat), length l + acc)%nat 0%nat m.
Proof.
  intros Ha.
  rewrite (map_fold_delete_L _ _ a (tx0 :: rest) m); [|by intros; apply sum_lengths_comm|done].
  rewrite (map_fold_delete_L _ _ a rest (<[a := rest]> m));
    [|by intros; apply sum_lengths_comm|by rewrite lookup_insert_eq].
  rewrite delete_insert_eq. simpl. lia.
Qed.

(** Every call of [Shift] or [Pop] that returns takes exactly one
    transaction out of the selector. *)
Lemma step_pendingCount t t' : step t t' → S (pendingCount t') = pendingCount t.
Proof.
  unfold pendingCount. intros [Hshift | Hpop].
  - unfold Shift in Hshift.
    apply bind_Some in Hshift as (head & Hhead & Hshift).
    destruct (txs t !! senderOf (signer t) head) as [[|tx0 rest]|] eqn:Hlook.
    1,3: apply bind_Some in Hshift as ([x hs] & Hp & [= <-]); simpl;
         apply Pop_Some in Hp as [_ Hperm]; rewrite Hperm; simpl; lia.
    apply bind_Some in Hshift as (hs & Hfix & [= <-]). simpl.
    apply Fix_Some in Hfix. rewrite Hfix, length_insert.
    rewrite <- (sum_lengths_insert (txs t) _ tx0 rest Hlook). lia.
  - unfold Pop in Hpop.
    apply bind_Some in Hpop as ([x hs] & Hp & [= <-]). simpl.
    apply Pop_Some in Hp as [_ Hperm]. rewrite Hperm. simpl. lia.
Qed.

(** After [n] calls of [Shift] and [Pop] that returned, the selector holds
    [n] transactions fewer: a selector holding [pendingCount t] transactions
    admits at most that many calls. *)
Theorem steps_pendingCount (n : nat) t t' :
  nsteps step n t t' → (pendingCount t' + n = pendingCount t)%nat ∧ (n ≤ pendingCount t)%nat.
Proof.
  intros Hn. assert (pendingCount t' + n = pendingCount t)%nat as E; [|lia].
  induction Hn as [|n t1 t2 t3 Hstep _ IH]; [lia|].
  apply step_pendingCount in Hstep. lia.
Qed.

(** The loop of the constructor over a map keyed by sender, seen from the
    map: keys it does not visit keep their entry, heads are only added, and
    a visited key with a non-empty list gives its first transaction to the
    heads and keeps the tail. *)
Lemma collectHead_foldl_heads s m order cur hs :
  keyedBySender s m →
  NoDup order →
  (∀ k, k ∈ order → cur !! k = m !! k) →
  let st' := foldl (collectHead s) (cur, hs) order in
  (∀ a, a ∉ order → st'.1 !! a = cur !! a)
  ∧ (∀ h, h ∈ hs → h ∈ st'.2)
  ∧ (∀ a tx0 rest, a ∈ order → m !! a = Some (tx0 :: rest) →
       tx0 ∈ st'.2 ∧ st'.1 !! a = Some rest)
  ∧ (∀ h, h ∈ st'.2 → h ∈ hs ∨ ∃ a rest, a ∈ order ∧ m !! a = Some (h :: rest)).
Proof.
  intros Hm. revert cur hs.
  induction order as [|k order IH]; intros cur hs Hnd Hsame; simpl.
  { split; [done|]. split; [done|]. split; [|by left].
    intros a tx0 rest Ha. by apply elem_of_nil in Ha. }
  apply NoDup_cons in Hnd as [Hk Hnd].
  assert (cur !! k = m !! k) as Hcurk by (apply Hsame; left).
  set (st1 := collectHead s (cur, hs) k).
  assert ((∀ a, a ≠ k → st1.1 !! a = cur !! a)
          ∧ (∀ h, h ∈ hs → h ∈ st1.2)
          ∧ (∀ tx0 rest, m !! k = Some (tx0 :: rest) →
               tx0 ∈ st1.2 ∧ st1.1 !! k = Some rest)
          ∧ (∀ h, h ∈ st1.2 → h ∈ hs ∨ ∃ rest, m !! k = Some (h :: rest)))
    as (Hother & Hkeep & Hfirst & Hfrom).
  { unfold st1, collectHead. simpl.
    destruct (cur !! k) as [[|tx0 rest]|] eqn:Hlook; simpl.
    1,3: split; [done|]; split; [done|]; split; [|by left];
         intros ? ? E; rewrite <- Hcurk in E; discriminate.
    rewrite <- Hcurk in *.
    destruct (keyedBySender_lookup s m k tx0 rest Hm (eq_sym Hcurk)) as [Hacc _].
    rewrite Hacc, decide_True by done.
    split; [by intros a Ha; rewrite lookup_insert_ne|].
    split; [by intros h Hh; apply elem_of_app; left|].
    split.
    - intros tx0' rest' [= <- <-]. split; [|by rewrite lookup_insert_eq].
      apply elem_of_app. right. by left.
    - intros h [Hh | ->%list_elem_of_singleton]%elem_of_app; [by left|].
      right. by exists rest. }
  destruct st1 as [cur1 hs1] eqn:Hst1. simpl in *.
  destruct (IH cur1 hs1 Hnd) as (H1 & H2 & H3 & H4).
  { intros k' Hk'. rewrite Hother by (by intros ->). apply Hsame. by right. }
  split; [|split; [|split]].
  - intros a Ha. rewrite H1 by (intros ?; apply Ha; by right).
    apply Hother. intros ->. apply Ha. by left.
  - intros h Hh. by apply H2, Hkeep.
  - intros a tx0 rest [-> | Ha]%elem_of_cons Hlook.
    + destruct (Hfirst tx0 rest Hlook) as [Hin Hl].
      split; [by apply H2|]. by rewrite H1.
    + by apply (H3 a).
  - intros h Hh. destruct (H4 h Hh) as [Hin | (a & rest & Ha & Hl)].
    + destruct (Hfrom h Hin) as [? | [rest Hl]]; [by left|].
      right. exists k, rest. split; [by left | done].
    + right. exists a, rest. split; [by right | done].
Qed.

(** Built from a map keyed by sender, with every key visited once, the
    selector has on its heap exactly the first transactions of the non-empty
    lists, and keeps the tail of each such list in [txs]. *)
Theorem NewTransactionsByPriceAndNonce_heads s order m t :
  NoDup order → keyedBySender s m → (∀ a, is_Some (m !! a) → a ∈ order) →
  NewTransactionsByPriceAndNonce s order m = Some t →
  (∀ h, h ∈ heads t ↔ ∃ a rest, m !! a = Some (h :: rest))
  ∧ (∀ a tx0 rest, m !! a = Some (tx0 :: rest) → txs t !! a = Some rest).
Proof.
  intros Hnd Hm Hall. unfold NewTransactionsByPriceAndNonce. intros Hnew.
  apply bind_Some in Hnew as (hs & Hinit & [= <-]). simpl.
  apply Init_Some in Hinit.
  destruct (collectHead_foldl_heads s m order m [] Hm Hnd) as (_ & _ & H3 & H4); [done|].
  split.
  - intros h. rewrite Hinit. split.
    + intros Hh. destruct (H4 h Hh) as [Hin | (a & rest & _ & Hl)];
        [by apply elem_of_nil in Hin | eauto].
    + intros (a & rest & Hl). apply (H3 a h rest); [|done]. apply Hall. eauto.
  - intros a tx0 rest Hl. apply (H3 a tx0 rest); [|done]. apply Hall. eauto.
Qed.

(** On a map whose lists are all empty, the empty map included, the
    constructor returns a selector with an empty heap and the map untouched;
    [Peek] returns nil on it. *)
Theorem NewTransactionsByPriceAndNonce_no_transactions s order m :
  (∀ a l, m !! a = Some l → l = []) →
  ∃ t, NewTransactionsByPriceAndNonce s order m = Some t
       ∧ heads t = [] ∧ txs t = m ∧ (Peek t).1 = None.
Proof.
  intros Hempty.
  assert (foldl (collectHead s) (m, []) order = (m, [])) as Hfold.
  { induction order as [|k order IH]; [done|]. simpl.
    replace (collectHead s (m, []) k) with (m, ([] : list Transaction)); [done|].
    unfold collectHead. simpl.
    destruct (m !! k) as [[|tx0 rest]|] eqn:Hk; [done| |done].
    by specialize (Hempty _ _ Hk). }
  unfold NewTransactionsByPriceAndNonce. rewrite Hfold. simpl.
  eexists. split; [reflexivity|]. done.
Qed.

End SelectorOrder.

(** *** More on [AsMessage], the caches and the decoders *)

Section RecordFacts.
Import common types.
Context {C : Collaborators}.

(** [AsMessage] twice is [AsMessage] once: the second call finds the
    metadata the first one stored and returns the same message and error. *)
Theorem AsMessage_idempotent (tx : Transaction) (s : Signer) :
  AsMessage (AsMessage tx s).1.1 s = AsMessage tx s.
Proof.
  unfold AsMessage, Sender, SetTransactionMeta, GetMeta.
  destruct tx as [d [bn ts ms qo ix qi raw] h sz]; simpl.
  destruct (SigV d =? 0) eqn:EV; simpl;
    destruct (recoverSender s d) as [from err] eqn:ES; simpl.
  - by rewrite EV, ES.
  - destruct ms, ix, qi; simpl; by rewrite EV, ES.
Qed.

(** For a transaction whose V is not zero, [AsMessage] keeps the L1
    timestamp, the L1 message sender and a present index and queue index,
    sets an absent index or queue index to 0, and overwrites the L1 block
    number with 0 and the queue origin with Sequencer; the message carries
    the timestamp that was kept. *)
Theorem AsMessage_sequencer_metadata (tx : Transaction) (s : Signer) :
  SigV (tx_data tx) ≠ 0 →
  let '(tx', msg, _) := AsMessage tx s in
  tx_meta tx' =
    {| meta_L1BlockNumber := Some 0;
       meta_L1Timestamp := meta_L1Timestamp (tx_meta tx);
       meta_L1MessageSender := meta_L1MessageSender (tx_meta tx);
       meta_QueueOrigin := QueueOriginSequencer;
       meta_Index := Some (default 0 (meta_Index (tx_meta tx)));
       meta_QueueIndex := Some (default 0 (meta_QueueIndex (tx_meta tx)));
       meta_RawTransaction := Payload (tx_data tx) |}
  ∧ msg_l1Timestamp msg = meta_L1Timestamp (tx_meta tx)
  ∧ msg_l1BlockNumber msg = Some 0.
Proof.
  intros HV. apply Z.eqb_neq in HV. revert HV.
  unfold AsMessage, Sender, SetTransactionMeta, GetMeta.
  destruct tx as [d [bn ts ms qo ix qi raw] h sz]; simpl. intros ->. simpl.
  destruct (recoverSender s d) as [from err]; simpl.
  destruct ms, ix, qi; done.
Qed.

(** A transaction fresh from [newTransaction] has V = 0: [AsMessage] makes
    it an L1-to-L2 message sent by the messenger, although its metadata said
    Sequencer. *)
Theorem AsMessage_of_unsigned_is_L1ToL2
    (nonce : Z) (to : option Address) (amount : option Z) (gasLimit : Z)
    (gasPrice : option Z) (data : list byte) (s : Signer) :
  let tx := newTransaction nonce to amount gasLimit gasPrice data in
  meta_QueueOrigin (tx_meta tx) = QueueOriginSequencer
  ∧ msg_queueOrigin (AsMessage tx s).1.2 = QueueOriginL1ToL2
  ∧ msg_l1MessageSender (AsMessage tx s).1.2 = Some l1CrossDomainMessenger
  ∧ meta_QueueOrigin (tx_meta (AsMessage tx s).1.1) = QueueOriginL1ToL2.
Proof.
  simpl. unfold AsMessage, Sender. simpl.
  by destruct (recoverSender s _) as [from err].
Qed.

(** What [AsMessage] makes of the values the metadata setters wrote: the L1
    block number set by [SetL1BlockNumber] is always discarded, the message
    and the stored metadata carry 0; the timestamp set by [SetL1Timestamp]
    and the index set by [SetIndex] reach the message and the metadata when
    V is not zero and are replaced by 0 when V is zero. *)
Theorem AsMessage_after_setters (tx : Transaction) (bn ts index : Z) (s : Signer) :
  (msg_l1BlockNumber (AsMessage (SetL1BlockNumber tx bn) s).1.2 = Some 0
   ∧ meta_L1BlockNumber (tx_meta (AsMessage (SetL1BlockNumber tx bn) s).1.1) = Some 0)
  ∧ (msg_l1Timestamp (AsMessage (SetL1Timestamp tx ts) s).1.2
       = (if SigV (tx_data tx) =? 0 then 0 else ts)
     ∧ meta_L1Timestamp (tx_meta (AsMessage (SetL1Timestamp tx ts) s).1.1)
       = (if SigV (tx_data tx) =? 0 then 0 else ts))
  ∧ meta_Index (tx_meta (AsMessage (SetIndex tx index) s).1.1)
    = Some (if SigV (tx_data tx) =? 0 then 0 else index).
Proof.
  destruct tx as [d m h sz]. unfold AsMessage, SetL1BlockNumber, SetL1Timestamp,
    SetIndex, SetTransactionMeta, GetMeta, NewTransactionMeta. simpl.
  destruct (Sender s _) as [from err] eqn:E. simpl.
  destruct (SigV d =? 0); simpl; repeat split;
    by destruct (meta_L1MessageSender m).
Qed.

(** [NewMessage] cannot carry an L1 timestamp: rebuilt by [NewMessage] from
    what its own accessors return, the message of [AsMessage] comes back
    unchanged exactly when V is zero or the transaction's L1 timestamp is
    zero; otherwise only the timestamp is lost. *)
Theorem NewMessage_rebuilds_AsMessage (tx : Transaction) (s : Signer) :
  (NewMessage (Message_From (AsMessage tx s).1.2) (Message_To (AsMessage tx s).1.2)
     (Message_Nonce (AsMessage tx s).1.2) (Message_Value (AsMessage tx s).1.2)
     (Message_Gas (AsMessage tx s).1.2) (Message_GasPrice (AsMessage tx s).1.2)
     (Message_Data (AsMessage tx s).1.2) (Message_CheckNonce (AsMessage tx s).1.2)
     (Message_L1MessageSender (AsMessage tx s).1.2)
     (Message_L1BlockNumber (AsMessage tx s).1.2)
     (Message_QueueOrigin (AsMessage tx s).1.2)
   = (AsMessage tx s).1.2
   ↔ SigV (tx_data tx) = 0 ∨ meta_L1Timestamp (tx_meta tx) = 0)
  ∧ Message_L1Timestamp (AsMessage tx s).1.2
    = (if SigV (tx_data tx) =? 0 then 0 else meta_L1Timestamp (tx_meta tx)).
Proof.
  destruct tx as [d m h sz]. unfold AsMessage, SetTransactionMeta, GetMeta,
    NewMessage, Message_From, Message_To, Message_Nonce, Message_Value, Message_Gas,
    Message_GasPrice, Message_Data, Message_CheckNonce, Message_L1MessageSender,
    Message_L1BlockNumber, Message_QueueOrigin, Message_L1Timestamp. simpl.
  destruct (Sender s _) as [from err] eqn:E. simpl.
  destruct (Z.eqb_spec (SigV d) 0) as [Hv|Hv]; simpl.
  - split; [|done]. split; [by left|done].
  - destruct (meta_L1MessageSender m); simpl; (split; [|done]); split.
    + intros [= Ht]. by right.
    + intros [?|Ht]; [done|]. by rewrite <- Ht.
    + intros [= Ht]. by right.
    + intros [?|Ht]; [done|]. by rewrite <- Ht.
Qed.

(** [SetNonce] writes the nonce and leaves both caches as they are: a hash
    or size computed before the call is what [Hash] and [Size] return after
    it, for every new nonce. *)
Theorem SetNonce_keeps_caches (tx : Transaction) (nonce : Z) :
  Nonce (SetNonce tx nonce) = nonce
  ∧ (Hash (SetNonce (Hash tx).2 nonce)).1 = (Hash tx).1
  ∧ (Size (SetNonce (Size tx).2 nonce)).1 = (Size tx).1.
Proof.
  split; [done|]. unfold Hash, Size, SetNonce.
  split; [destruct (tx_hash tx) eqn:E | destruct (tx_size tx) eqn:E]; simpl;
    by rewrite ?E.
Qed.

(** [WithSignature], when the signer accepts the signature, returns a copy
    with the signer's values as V, R, S, the other core fields and the
    metadata of the receiver, and empty caches: its hash is computed from
    the signed fields, whatever the receiver had stored. *)
Theorem WithSignature_fresh_copy
    (tx : Transaction) (signer : Signer) (sig : list byte) (r s v : Z) :
  SignatureValues signer (tx_data tx) sig = ((r, s, v), None) →
  ∃ cpy, WithSignature tx signer sig = (Some cpy, None)
    ∧ RawSignatureValues cpy = (v, r, s)
    ∧ (AccountNonce (tx_data cpy), Price (tx_data cpy), GasLimit (tx_data cpy),
       Recipient (tx_data cpy), Amount (tx_data cpy), Payload (tx_data cpy))
      = (AccountNonce (tx_data tx), Price (tx_data tx), GasLimit (tx_data tx),
         Recipient (tx_data tx), Amount (tx_data tx), Payload (tx_data tx))
    ∧ tx_meta cpy = tx_meta tx
    ∧ (Hash cpy).1 = keccak256 (rlpEncode (tx_data cpy))
    ∧ (Size cpy).1 = Z.of_nat (length (rlpEncode (tx_data cpy))).
Proof.
  intros Hsig. unfold WithSignature. rewrite Hsig.
  eexists. split; [reflexivity|]. done.
Qed.

(** When the signer refuses the signature, [WithSignature] returns no
    transaction and the signer's error. *)
Lemma WithSignature_error
    (tx : Transaction) (signer : Signer) (sig : list byte) (vals : Z * Z * Z) (e : error) :
  SignatureValues signer (tx_data tx) sig = (vals, Some e) →
  WithSignature tx signer sig = (None, Some e).
Proof. intros Hsig. unfold WithSignature. rewrite Hsig. by destruct vals as [[? ?] ?]. Qed.

(** Neither decoder touches the metadata or the hash cache: a transaction
    that was hashed and is then decoded into keeps returning the old hash.
    [DecodeRLP] replaces the size cache by [rlp.ListSize] of the stream's
    size when the decode succeeds and leaves it otherwise; [UnmarshalJSON]
    leaves the size cache alone. *)
Theorem decoders_keep_hash_cache
    (tx : Transaction) (s : Stream) (input : list byte) (hash : common.Hash) :
  tx_hash tx = Some hash →
  ((Hash (DecodeRLP tx s).1).1 = hash
   ∧ tx_meta (DecodeRLP tx s).1 = tx_meta tx
   ∧ tx_size (DecodeRLP tx s).1 =
       match (DecodeRLP tx s).2 with
       | None => Some (rlpListSize (streamKindSize s))
       | Some _ => tx_size tx
       end)
  ∧ ((Hash (UnmarshalJSON tx input).1).1 = hash
     ∧ tx_meta (UnmarshalJSON tx input).1 = tx_meta tx
     ∧ tx_size (UnmarshalJSON tx input).1 = tx_size tx).
Proof.
  intros Hh. split.
  - unfold DecodeRLP, Hash.
    destruct (streamDecode s (tx_data tx)) as [d [e|]]; simpl; by rewrite Hh.
  - unfold UnmarshalJSON, Hash.
    destruct (txdataUnmarshalJSON input (tx_data tx)) as [d [e|]]; simpl;
      [by rewrite Hh|].
    destruct (withSignature d); [|by simpl; rewrite Hh].
    destruct (ValidateSignatureValues _ _ _ _); simpl; by rewrite Hh.
Qed.

(** After a [DecodeRLP] that succeeded, [Size] is [rlp.ListSize] of the size
    the stream reported, whatever size was cached before and without
    encoding the decoded fields. *)
Theorem DecodeRLP_then_Size (tx : Transaction) (s : Stream) :
  (DecodeRLP tx s).2 = None →
  (Size (DecodeRLP tx s).1).1 = rlpListSize (streamKindSize s)
  ∧ tx_data (DecodeRLP tx s).1 = (streamDecode s (tx_data tx)).1.
Proof.
  unfold DecodeRLP, Size.
  destruct (streamDecode s (tx_data tx)) as [d [e|]]; simpl; [done|]. done.
Qed.

(** [isProtectedV] is false exactly when the absolute value of V is 27 or
    28. *)
Theorem isProtectedV_false_iff (V : Z) :
  isProtectedV V = false ↔ Z.abs V = 27 ∨ Z.abs V = 28.
Proof.
  unfold isProtectedV, Uint64.
  destruct (Z.ltb_spec (Z.abs V) 256) as [Hlt|Hge].
  - rewrite Z.mod_small by lia.
    destruct (Z.eqb_spec (Z.abs V) 27), (Z.eqb_spec (Z.abs V) 28); simpl;
      intuition lia.
  - intuition lia.
Qed.

(** For V = 27 or 28 the recovery byte [UnmarshalJSON] validates is V - 27,
    that is 0 or 1. *)
Theorem recoveryByte_unprotected (d : txdata) :
  SigV d = 27 ∨ SigV d = 28 → recoveryByte d = SigV d - 27.
Proof.
  intros [E | E]; unfold recoveryByte; rewrite E; reflexivity.
Qed.

(** For an EIP-155 value V = 35 + 2 * chainID + parity that fits 64 bits,
    with [deriveChainId] giving (V - 35) / 2, the recovery byte is the
    parity: the subtractions on [uint64] do not wrap. *)
Theorem recoveryByte_eip155 (d : txdata) :
  35 ≤ SigV d < 2 ^ 64 → deriveChainId (SigV d) = (SigV d - 35) / 2 →
  recoveryByte d = (SigV d - 35) mod 2.
Proof.
  intros HV Hchain. unfold recoveryByte.
  assert (isProtectedV (SigV d) = true) as ->.
  { unfold isProtectedV, Uint64.
    destruct (Z.ltb_spec (Z.abs (SigV d)) 256) as [Hlt|Hge]; [|done].
    rewrite Z.mod_small by lia.
    destruct (Z.eqb_spec (Z.abs (SigV d)) 27), (Z.eqb_spec (Z.abs (SigV d)) 28);
      simpl; lia. }
  rewrite Hchain. unfold Uint64, wrap64, toByte.
  set (w := SigV d - 35) in *.
  assert (0 ≤ w < 2 ^ 64) as Hw by (unfold w; lia).
  pose proof (Z.div_mod w 2 ltac:(lia)) as Hdm.
  pose proof (Z.mod_pos_bound w 2 ltac:(lia)) as Hm.
  assert (0 ≤ w / 2 < 2 ^ 63) as Hq.
  { split; [apply Z.div_pos; lia|]. apply Z.div_lt_upper_bound; lia. }
  rewrite (Z.abs_eq (SigV d)) by lia. rewrite (Z.mod_small (SigV d)) by lia.
  rewrite (Z.abs_eq (w / 2)) by lia. rewrite (Z.mod_small (w / 2)) by lia.
  fold w. rewrite (Z.mod_small w) by lia.
  rewrite (Z.mod_small (2 * (w / 2))) by lia.
  replace (w - 2 * (w / 2)) with (w mod 2) by lia.
  rewrite (Z.mod_small (w mod 2)) by lia.
  apply Z.mod_small. lia.
Qed.

(** [TxByPrice.Pop] after [TxByPrice.Push] returns the pushed transaction
    and the slice as it was; on the empty slice [Pop] panics. *)
Theorem TxByPrice_Pop_Push (s : list Transaction) (x : Transaction) :
  TxByPrice_Pop (TxByPrice_Push s x) = Some (x, s) ∧ TxByPrice_Pop [] = None.
Proof.
  split; [|done]. unfold TxByPrice_Pop, TxByPrice_Push, heap.PopBack.
  rewrite length_app. simpl. rewrite Nat.add_1_r.
  rewrite lookup_app_r by lia. rewrite Nat.sub_diag. simpl.
  by rewrite take_app_length.
Qed.

Lemma remove_set_elem_of (b : list Transaction) (R : gset N) (x : N) :
  x ∈ foldl (λ (remove : gset N) tx, {[ (Hash tx).1 ]} ∪ remove) R b
  ↔ x ∈ R ∨ x ∈ (λ tx, (Hash tx).1) <$> b.
Proof.
  revert R. induction b as [|tx b IH]; intros R; simpl.
  - rewrite elem_of_nil. tauto.
  - rewrite IH, elem_of_cons, elem_of_union, elem_of_singleton. tauto.
Qed.

Lemma keep_loop (P : Transaction → Prop) `{!∀ tx, Decision (P tx)}
    (Q : Transaction → Prop) `{!∀ tx, Decision (Q tx)}
    (a keep : list Transaction) :
  (∀ tx, P tx ↔ ¬ Q tx) →
  foldl (λ (keep : list Transaction) tx,
           if decide (P tx) then keep else keep ++ [(Hash tx).2]) keep a
  = keep ++ ((λ tx, (Hash tx).2) <$> filter Q a).
Proof.
  intros HPQ. revert keep. induction a as [|tx a IH]; intros keep; simpl.
  - by rewrite app_nil_r.
  - rewrite IH, filter_cons. destruct (decide (P tx)) as [HP|HP].
    + rewrite decide_False; [done|]. by apply HPQ.
    + rewrite decide_True.
      * by rewrite fmap_cons, <- app_assoc.
      * destruct (decide (Q tx)); [done|]. exfalso. by apply HP, HPQ.
Qed.

(** The two loops of [TxDifference] as a filter. *)
Lemma TxDifference_filter (a b : list Transaction) :
  TxDifference a b
  = (λ tx, (Hash tx).2)
      <$> filter (λ tx, (Hash tx).1 ∉ (λ tx', (Hash tx').1) <$> b) a.
Proof.
  unfold TxDifference.
  rewrite (keep_loop _ (λ tx, (Hash tx).1 ∉ (λ tx', (Hash tx').1) <$> b)); [done|].
  intros tx. rewrite remove_set_elem_of, elem_of_empty.
  destruct (decide ((Hash tx).1 ∈ (λ tx', (Hash tx').1) <$> b)); tauto.
Qed.

Lemma filter_none {A} (P : A → Prop) `{!∀ x, Decision (P x)} (l : list A) :
  (∀ x, x ∈ l → ¬ P x) → filter P l = [].
Proof.
  induction l as [|x l IH]; intros Hl; [done|].
  rewrite filter_cons_False by (apply Hl; by left).
  apply IH. intros y Hy. apply Hl. by right.
Qed.

Lemma filter_all {A} (P : A → Prop) `{!∀ x, Decision (P x)} (l : list A) :
  (∀ x, x ∈ l → P x) → filter P l = l.
Proof.
  induction l as [|x l IH]; intros Hl; [done|].
  rewrite filter_cons_True by (apply Hl; by left).
  f_equal. apply IH. intros y Hy. apply Hl. by right.
Qed.

Lemma Hash_keeps_data (tx : Transaction) : tx_data (Hash tx).2 = tx_data tx.
Proof. unfold Hash. by destruct (tx_hash tx). Qed.

(** [TxDifference a b] is the list, in the order of [a], of the
    transactions of [a] whose hash is not the hash of a transaction of [b],
    each with its hash stored.  So no transaction of the result has the hash
    of a transaction of [b]; the core fields of the result are a sublist of
    those of [a]; the difference of a list with itself is empty, and the
    difference with the empty list keeps every transaction. *)
Theorem TxDifference_result (a b : list Transaction) :
  TxDifference a b
  = (λ tx, (Hash tx).2)
      <$> filter (λ tx, (Hash tx).1 ∉ (λ tx', (Hash tx').1) <$> b) a
  ∧ (∀ k, k ∈ TxDifference a b → (Hash k).1 ∉ (λ tx, (Hash tx).1) <$> b)
  ∧ (tx_data <$> TxDifference a b) `sublist_of` (tx_data <$> a)
  ∧ TxDifference a a = []
  ∧ tx_data <$> TxDifference a [] = tx_data <$> a.
Proof.
  assert (∀ l : list Transaction,
            tx_data <$> ((λ tx, (Hash tx).2) <$> l) = tx_data <$> l) as Hdata.
  { intros l. rewrite <- list_fmap_compose. apply list_fmap_ext.
    intros i tx _. apply Hash_keeps_data. }
  split; [apply TxDifference_filter|]. split; [|split; [|split]].
  - intros k. rewrite TxDifference_filter.
    intros (tx & -> & Hin)%list_elem_of_fmap.
    apply list_elem_of_filter in Hin as [Hnot _].
    pose proof (Hash_memoized tx) as Hm. apply (f_equal fst) in Hm. simpl in Hm.
    by rewrite Hm.
  - rewrite TxDifference_filter, Hdata.
    apply fmap_sublist, sublist_filter.
  - rewrite TxDifference_filter, filter_none; [done|].
    intros tx Hin Hnot. apply Hnot. apply list_elem_of_fmap. by exists tx.
  - rewrite TxDifference_filter, Hdata, filter_all; [done|].
    intros tx _. rewrite fmap_nil. apply not_elem_of_nil.
Qed.

End RecordFacts.

(** *** The selector: what one call does, and the order of an account *)

Section SelectorEffects.
Import common types.
Context {C : Collaborators}.
Implicit Types (s : Signer) (m : gmap N (list Transaction)) (t : TransactionsByPriceAndNonce).

(** [Shift] takes the head [Peek] returns off the heap.  When [txs] holds a
    non-empty list for the sender of that head, the first transaction of the
    list takes its place and the list loses it; otherwise nothing takes its
    place and [txs] is left as it is.  The other heads stay. *)
Theorem Shift_effect t t' :
  Shift t = Some t' →
  ∃ head rest_heads,
    (Peek t).1 = Some head ∧ heads t = head :: rest_heads ∧ signer t' = signer t
    ∧ match txs t !! senderOf (signer t) head with
      | Some (tx0 :: rest) =>
          heads t' ≡ₚ tx0 :: rest_heads
          ∧ txs t' = <[senderOf (signer t) head := rest]> (txs t)
      | _ => heads t' ≡ₚ rest_heads ∧ txs t' = txs t
      end.
Proof.
  unfold Shift. intros Hshift.
  apply bind_Some in Hshift as (head & Hhead & Hshift).
  destruct (heads t) as [|head' tl] eqn:Hheads; [done|]. injection Hhead as ->.
  exists head, tl. unfold Peek. rewrite Hheads. split; [done|]. split; [done|].
  destruct (txs t !! senderOf (signer t) head) as [[|tx0 rest]|].
  1,3: apply bind_Some in Hshift as ([x hs] & Hp & [= <-]); simpl;
       apply Pop_Some in Hp as [Hx Hperm]; injection Hx as <-;
       split; [done|]; split; [|done];
       by apply (inj (cons head)).
  apply bind_Some in Hshift as (hs & Hfix & [= <-]). simpl.
  apply Fix_Some in Hfix. done.
Qed.

(** [Pop] takes the head [Peek] returns off the heap and nothing else: the
    other heads stay, and [txs], the list of the popped account included, is
    left as it is. *)
Theorem Pop_effect t t' :
  Pop t = Some t' →
  ∃ head,
    (Peek t).1 = Some head ∧ heads t ≡ₚ head :: heads t'
    ∧ txs t' = txs t ∧ signer t' = signer t.
Proof.
  unfold Pop. intros Hpop.
  apply bind_Some in Hpop as ([x hs] & Hp & [= <-]). simpl.
  apply Pop_Some in Hp as [Hx Hperm].
  exists x. unfold Peek. destruct (heads t); [done|].
  injection Hx as ->. done.
Qed.

(** A call never gives a list of [txs] back what it lost. *)
Lemma step_remaining_suffix t t' (a : N) :
  step t t' → remainingOf t' a `suffix_of` remainingOf t a.
Proof.
  unfold remainingOf. intros [Hshift | Hpop].
  - unfold Shift in Hshift.
    apply bind_Some in Hshift as (head & _ & Hshift).
    destruct (txs t !! senderOf (signer t) head) as [[|tx0 rest]|] eqn:Hlook.
    1,3: by apply bind_Some in Hshift as ([x hs] & _ & [= <-]).
    apply bind_Some in Hshift as (hs & _ & [= <-]). simpl.
    destruct (decide (a = senderOf (signer t) head)) as [->|Hne].
    + rewrite lookup_insert_eq, Hlook. simpl. by apply suffix_cons_r.
    + by rewrite lookup_insert_ne.
  - unfold Pop in Hpop. by apply bind_Some in Hpop as ([x hs] & _ & [= <-]).
Qed.

Lemma steps_remaining_suffix t t' (a : N) :
  rtc step t t' → remainingOf t' a `suffix_of` remainingOf t a.
Proof.
  intros Hsteps. induction Hsteps as [|t1 t2 t3 Hstep _ IH]; [done|].
  etrans; [exact IH|]. by apply step_remaining_suffix.
Qed.

(** Two places in one list: when what follows the second is a suffix of what
    follows the first, the second is the first or comes after it. *)
Lemma later_in_list {A} (e e' rem rem' : list A) (h h' : A) :
  e ++ h :: rem = e' ++ h' :: rem' → rem' `suffix_of` rem →
  (e' = e ∧ h' = h) ∨ h' ∈ rem.
Proof.
  intros Heq [k ->].
  assert (e ++ h :: k = e' ++ [h']) as Hk.
  { apply (app_inv_tail rem'). rewrite <- !app_assoc. simpl. exact Heq. }
  destruct k as [|z k _] using rev_ind.
  - apply app_inj_tail in Hk as [-> ->]. by left.
  - right. change (e ++ h :: k ++ [z]) with (e ++ (h :: k) ++ [z]) in Hk.
    rewrite app_assoc in Hk. apply app_inj_tail in Hk as [_ ->].
    apply elem_of_app. left. apply elem_of_app. right. by left.
Qed.

(** Each account surfaces in nonce order: on a selector built from a
    nonce-sorted map keyed by sender, a head seen after any further calls of
    [Shift] and [Pop] has a nonce at least that of a head of the same sender
    seen before. *)
Theorem heads_in_nonce_order s order m t t' h h' :
  NoDup order → keyedBySender s m → nonceSorted m →
  reachable s order m t → rtc step t t' →
  h ∈ heads t → h' ∈ heads t' → senderOf s h' = senderOf s h →
  Nonce h ≤ Nonce h'.
Proof.
  intros Hnd Hm Hsorted Hreach Hsteps Hh Hh' Hsame.
  pose proof (reachable_inv s order m t Hnd Hm Hreach) as Hinv.
  destruct (steps_senders s m t t' Hinv Hsteps) as [Hinv' _].
  destruct Hinv as (_ & _ & _ & Hheads). destruct Hinv' as (_ & _ & _ & Hheads').
  destruct (Hheads h Hh) as [e He]. destruct (Hheads' h' Hh') as [e' He'].
  rewrite Hsame in He'. rewrite He in He'. injection He' as Heq.
  pose proof (steps_remaining_suffix t t' (senderOf s h) Hsteps) as Hsuf.
  specialize (Hsorted _ _ He). simpl in Hsorted.
  apply (@Sorted_StronglySorted _ _ nonce_le_transitive) in Hsorted.
  apply StronglySorted_app_1_r in Hsorted.
  apply StronglySorted_cons in Hsorted as [Hall _].
  destruct (later_in_list _ _ _ _ _ _ Heq Hsuf) as [[_ ->] | Hin]; [lia|].
  rewrite Forall_forall in Hall. by apply Hall.
Qed.

End SelectorEffects.

Section MoreInstances.
Import common types.
Local Existing Instance sample.standard.

(** Deciding a closed proposition by evaluation. *)
Ltac eval_decide := apply (bool_decide_unpack _); vm_compute; exact I.

Lemma sample_order_NoDup : NoDup [5%N; 6%N].
Proof. eval_decide. Defined.

Lemma sample_pending_keyed : keyedBySender (C := sample.standard) tt sample.pending.
Proof. unfold keyedBySender. eval_decide. Defined.

Lemma sample_pending_keys (a : N) : is_Some (sample.pending !! a) → a ∈ [5%N; 6%N].
Proof.
  intros [l Hl]. unfold sample.pending in Hl.
  apply lookup_insert_Some in Hl as [[<- _] | [_ Hl]]; [by left|].
  apply lookup_singleton_Some in Hl as [<- _]. right. by left.
Defined.

(** On the sample selector the best head costs 4 and no head costs more. *)
Lemma Peek_highest_price_witness :
  ∃ t x,
    NewTransactionsByPriceAndNonce tt [5%N; 6%N] sample.pending = Some t
    ∧ (Peek t).1 = Some x
    ∧ GasPrice x = 4
    ∧ ∀ h, h ∈ heads t → GasPrice h ≤ GasPrice x.
Proof.
  do 2 eexists.
  split; [vm_compute; reflexivity|]. split; [vm_compute; reflexivity|].
  split; [vm_compute; reflexivity|].
  apply (Peek_highest_price (C := sample.standard) tt [5%N; 6%N] sample.pending).
  - eexists. split; [vm_compute; reflexivity | apply rtc_refl].
  - vm_compute; reflexivity.
Defined.

(** On the sample selector [Pop] removes the head of price 4 and the next
    [Peek] returns the head of price 3. *)
Lemma Pop_then_Peek_not_higher_witness :
  ∃ t x t1 y,
    NewTransactionsByPriceAndNonce tt [5%N; 6%N] sample.pending = Some t
    ∧ (Peek t).1 = Some x ∧ Pop t = Some t1 ∧ (Peek t1).1 = Some y
    ∧ GasPrice y = 3
    ∧ GasPrice y ≤ GasPrice x.
Proof.
  do 4 eexists.
  split; [vm_compute; reflexivity|]. split; [vm_compute; reflexivity|].
  split; [vm_compute; reflexivity|]. split; [vm_compute; reflexivity|].
  split; [vm_compute; reflexivity|].
  eapply (Pop_then_Peek_not_higher (C := sample.standard) tt [5%N; 6%N] sample.pending).
  - eexists. split; [vm_compute; reflexivity | apply rtc_refl].
  - vm_compute; reflexivity.
  - vm_compute; reflexivity.
  - vm_compute; reflexivity.
Defined.

(** Two calls of [Shift] on the sample selector, which holds three
    transactions, leave one. *)
Lemma steps_pendingCount_witness :
  ∃ t0 t1 t2,
    NewTransactionsByPriceAndNonce tt [5%N; 6%N] sample.pending = Some t0
    ∧ Shift t0 = Some t1 ∧ Shift t1 = Some t2
    ∧ (pendingCount t2 + 2 = pendingCount t0)%nat ∧ (2 ≤ pendingCount t0)%nat.
Proof.
  do 3 eexists.
  split; [vm_compute; reflexivity|]. split; [vm_compute; reflexivity|].
  split; [vm_compute; reflexivity|].
  apply (steps_pendingCount (C := sample.standard) 2).
  eapply nsteps_l; [left; vm_compute; reflexivity|].
  eapply nsteps_l; [left; vm_compute; reflexivity|].
  apply nsteps_O.
Defined.

(** The heads of the sample selector are the first transactions of the two
    lists, and [txs] keeps the tails. *)
Lemma NewTransactionsByPriceAndNonce_heads_witness :
  ∃ t,
    NewTransactionsByPriceAndNonce tt [5%N; 6%N] sample.pending = Some t
    ∧ (∀ h, h ∈ heads t ↔ ∃ a rest, sample.pending !! a = Some (h :: rest))
    ∧ (∀ a tx0 rest, sample.pending !! a = Some (tx0 :: rest) → txs t !! a = Some rest).
Proof.
  eexists. split; [vm_compute; reflexivity|].
  apply (NewTransactionsByPriceAndNonce_heads (C := sample.standard)
           tt [5%N; 6%N] sample.pending);
    [exact sample_order_NoDup | exact sample_pending_keyed
     | exact sample_pending_keys | vm_compute; reflexivity].
Defined.

(** A map with one account and no transaction gives an empty heap. *)
Lemma NewTransactionsByPriceAndNonce_no_transactions_witness :
  ∃ t,
    NewTransactionsByPriceAndNonce tt [5%N] ({[ 5%N := [] ]} : gmap N (list Transaction))
    = Some t
    ∧ heads t = [] ∧ txs t = {[ 5%N := [] ]} ∧ (Peek t).1 = None.
Proof.
  apply (NewTransactionsByPriceAndNonce_no_transactions (C := sample.standard)
           tt [5%N] {[ 5%N := [] ]}).
  intros a l Hl. by apply lookup_singleton_Some in Hl as [_ <-].
Defined.

(** A signed transaction with the index 9 keeps it and gets the queue
    index 0. *)
Lemma AsMessage_sequencer_metadata_witness :
  SigV (tx_data (SetIndex (sample.signedTx 3 1 27 5 1) 9)) ≠ 0
  ∧ meta_Index (tx_meta (AsMessage (SetIndex (sample.signedTx 3 1 27 5 1) 9) tt).1.1)
    = Some 9
  ∧ meta_QueueIndex (tx_meta (AsMessage (SetIndex (sample.signedTx 3 1 27 5 1) 9) tt).1.1)
    = Some 0.
Proof.
  assert (SigV (tx_data (SetIndex (sample.signedTx 3 1 27 5 1) 9)) ≠ 0) as HV by done.
  split; [exact HV|].
  pose proof (AsMessage_sequencer_metadata (C := sample.standard)
                (SetIndex (sample.signedTx 3 1 27 5 1) 9) tt HV) as Hw.
  destruct (AsMessage _ _) as [[tx' msg] err]. destruct Hw as (Hm & _).
  simpl. rewrite Hm. split; reflexivity.
Defined.

(** The sample signer that accepts signatures turns two bytes into r = 2,
    s = 1, v = 27. *)
Lemma WithSignature_fresh_copy_witness :
  ∃ cpy,
    WithSignature (C := sample.signing) (sample.signedTx 0 1 0 0 0) tt [Byte.x01; Byte.x02]
    = (Some cpy, None)
    ∧ RawSignatureValues cpy = (27, 2, 1).
Proof.
  destruct (WithSignature_fresh_copy (C := sample.signing)
              (sample.signedTx 0 1 0 0 0) tt [Byte.x01; Byte.x02] 2 1 27 eq_refl)
    as (cpy & Hc & Hv & _).
  exists cpy. split; [exact Hc | exact Hv].
Defined.

(** A transaction hashed before it is decoded into keeps its hash, 2 for
    the sample hasher, while its core fields become the decoded ones. *)
Lemma decoders_keep_hash_cache_witness :
  tx_hash (Hash (sample.signedTx 0 1 0 0 0)).2 = Some 2%N
  ∧ (Hash (DecodeRLP (Hash (sample.signedTx 0 1 0 0 0)).2 true).1).1 = 2%N
  ∧ tx_data (DecodeRLP (Hash (sample.signedTx 0 1 0 0 0)).2 true).1 = sample.badSignature.
Proof.
  split; [reflexivity|]. split; [|reflexivity].
  exact (proj1 (proj1 (decoders_keep_hash_cache (C := sample.standard)
                         (Hash (sample.signedTx 0 1 0 0 0)).2 true [] 2%N eq_refl))).
Defined.

(** The sample stream reports the size 0. *)
Lemma DecodeRLP_then_Size_witness :
  (DecodeRLP (sample.signedTx 0 1 0 0 0) true).2 = None
  ∧ (Size (DecodeRLP (sample.signedTx 0 1 0 0 0) true).1).1 = 0.
Proof.
  split; [reflexivity|].
  exact (proj1 (DecodeRLP_then_Size (C := sample.standard)
                  (sample.signedTx 0 1 0 0 0) true eq_refl)).
Defined.

(** V = 27 gives the recovery byte 0. *)
Lemma recoveryByte_unprotected_witness :
  SigV sample.badSignature = 27 ∧ recoveryByte sample.badSignature = 0.
Proof.
  split; [reflexivity|].
  exact (recoveryByte_unprotected (C := sample.standard) sample.badSignature
           (or_introl eq_refl)).
Defined.

(** V = 35 + 2 * 429 + 1, for the chain id 429 of the local environment,
    gives the recovery byte 1. *)
Lemma recoveryByte_eip155_witness :
  recoveryByte (sample.coreFields 0 1 894 5 1) = 1.
Proof.
  apply (recoveryByte_eip155 (C := sample.standard) (sample.coreFields 0 1 894 5 1)).
  - split; [by vm_compute | reflexivity].
  - reflexivity.
Defined.

Lemma sample_pending_sorted : nonceSorted sample.pending.
Proof. unfold nonceSorted. eval_decide. Defined.

(** The first [Shift] on the sample selector: the best head is the only
    transaction of account 6, so nothing takes its place. *)
Lemma Shift_effect_witness :
  ∃ t t',
    NewTransactionsByPriceAndNonce tt [5%N; 6%N] sample.pending = Some t
    ∧ Shift t = Some t'
    ∧ length (heads t') = 1%nat
    ∧ ∃ head rest_heads,
        (Peek t).1 = Some head ∧ heads t = head :: rest_heads ∧ signer t' = signer t
        ∧ match txs t !! senderOf (signer t) head with
          | Some (tx0 :: rest) =>
              heads t' ≡ₚ tx0 :: rest_heads
              ∧ txs t' = <[senderOf (signer t) head := rest]> (txs t)
          | _ => heads t' ≡ₚ rest_heads ∧ txs t' = txs t
          end.
Proof.
  do 2 eexists.
  split; [vm_compute; reflexivity|]. split; [vm_compute; reflexivity|].
  split; [vm_compute; reflexivity|].
  apply (Shift_effect (C := sample.standard)). vm_compute. reflexivity.
Defined.

(** [Pop] on the sample selector. *)
Lemma Pop_effect_witness :
  ∃ t t',
    NewTransactionsByPriceAndNonce tt [5%N; 6%N] sample.pending = Some t
    ∧ Pop t = Some t'
    ∧ ∃ head,
        (Peek t).1 = Some head ∧ heads t ≡ₚ head :: heads t'
        ∧ txs t' = txs t ∧ signer t' = signer t.
Proof.
  do 2 eexists.
  split; [vm_compute; reflexivity|]. split; [vm_compute; reflexivity|].
  apply (Pop_effect (C := sample.standard)). vm_compute. reflexivity.
Defined.

(** Account 5 on the sample selector: its head of nonce 0 at the start, its
    head of nonce 1 after two calls of [Shift]. *)
Lemma heads_in_nonce_order_witness :
  ∃ t t1 t2 h h',
    NewTransactionsByPriceAndNonce tt [5%N; 6%N] sample.pending = Some t
    ∧ Shift t = Some t1 ∧ Shift t1 = Some t2
    ∧ heads t !! 1%nat = Some h ∧ heads t2 !! 0%nat = Some h'
    ∧ senderOf tt h' = senderOf tt h
    ∧ Nonce h = 0 ∧ Nonce h' = 1
    ∧ Nonce h ≤ Nonce h'.
Proof.
  do 5 eexists.
  split; [vm_compute; reflexivity|]. split; [vm_compute; reflexivity|].
  split; [vm_compute; reflexivity|]. split; [vm_compute; reflexivity|].
  split; [vm_compute; reflexivity|]. split; [vm_compute; reflexivity|].
  split; [vm_compute; reflexivity|]. split; [vm_compute; reflexivity|].
  eapply (heads_in_nonce_order (C := sample.standard) tt [5%N; 6%N] sample.pending);
    [exact sample_order_NoDup | exact sample_pending_keyed | exact sample_pending_sorted
     | | | | | ].
  - eexists. split; [vm_compute; reflexivity | apply rtc_refl].
  - eapply rtc_l; [left; vm_compute; reflexivity|].
    eapply rtc_l; [left; vm_compute; reflexivity|]. apply rtc_refl.
  - apply list_elem_of_lookup. exists 1%nat. vm_compute. reflexivity.
  - apply list_elem_of_lookup. exists 0%nat. vm_compute. reflexivity.
  - vm_compute. reflexivity.
Defined.

End MoreInstances.
